(** * Agentic Sandbox Runtime: the command-execution and file endpoints

    A shallow embedding of [examples/python-runtime-sandbox/main.py]:
    the synchronous [/execute] handler ([execute_command]) and the
    streaming [/execute/stream] handler ([event_generator]), together
    with the library calls they are built from ([shlex.split],
    [subprocess.run], [asyncio.create_subprocess_exec], the stream
    readers and [asyncio.wait_for]), and the two file handlers
    ([upload_file], [download_file]) over a file system.

    Conventions.
    - A Python [str] is a [string] holding its UTF-8 bytes; [bytes] are
      a [string] as well.
    - A Python [int] is a [Z].
    - Time is counted in milliseconds since the handler started, as a [Z];
      only waiting takes time.
    - Code that may raise returns an [Outcome]; [try]/[except] is a match
      on it.
    - The operating system is a [world]: it tells what executing an
      argument vector does, as a [child] that writes to its two pipes at
      given times and exits at a given time with a given status. *)

From Stdlib Require Import ZArith List String Ascii Bool Lia DecimalString.
From Stdlib Require DecimalPos DecimalZ.
Import ListNotations.
Open Scope string_scope.
Open Scope Z_scope.

(* ------------------------------------------------------------------ *)
(** ** Python values *)

Definition LF : ascii := "010"%char.
Definition CR : ascii := "013"%char.
Definition TAB : ascii := "009"%char.
Definition DQUOTE : ascii := "034"%char.
Definition SQUOTE : ascii := "039"%char.
Definition BACKSLASH : ascii := "092"%char.

(** [s + c] for a one-character [c]. *)
Definition snoc (s : string) (c : ascii) : string := s ++ String c EmptyString.

(** [str(n)] for an [int]. *)
Definition str_int (n : Z) : string := NilZero.string_of_int (Z.to_int n).

(** [bool(s)] for a [str] or [bytes]. *)
Definition truthy (s : string) : bool :=
  match s with EmptyString => false | String _ _ => true end.

(** Exceptions raised by the modelled code; all of them derive from
    [Exception].  Each carries what [str(e)] prints, but for
    [TimeoutExpired], which carries its [cmd], as it is printed, and its
    [timeout]. *)
Inductive exn : Type :=
| ValueError (msg : string)
| IndexError (msg : string)
| TypeError (msg : string)
| OSError (msg : string)
| UnicodeDecodeError (msg : string)
| OverflowError (msg : string)
| TimeoutExpired (cmd : string) (timeout : Z).

Definition str_exn (e : exn) : string :=
  match e with
  | ValueError m | IndexError m | TypeError m | OSError m
  | UnicodeDecodeError m | OverflowError m => m
  | TimeoutExpired cmd t =>
      "Command '" ++ cmd ++ "' timed out after " ++ str_int t ++ " seconds"
  end.

Inductive Outcome (A : Type) : Type :=
| Returned (a : A)
| Raised (e : exn).
Arguments Returned {A} a.
Arguments Raised {A} e.

Definition bind {A B} (m : Outcome A) (k : A -> Outcome B) : Outcome B :=
  match m with
  | Returned a => k a
  | Raised e => Raised e
  end.

Notation "x <- m ;; k" := (bind m (fun x => k))
  (at level 61, m at next level, right associativity).

(* ------------------------------------------------------------------ *)
(** ** [shlex.split(s)]: [shlex(s, posix=True)] with
    [whitespace_split = True] and [commenters = ''] *)

Module shlex.

Definition whitespace (c : ascii) : bool :=
  Ascii.eqb c " " || Ascii.eqb c TAB || Ascii.eqb c CR || Ascii.eqb c LF.
Definition quotes (c : ascii) : bool :=
  Ascii.eqb c SQUOTE || Ascii.eqb c DQUOTE.
Definition escape (c : ascii) : bool := Ascii.eqb c BACKSLASH.
Definition escapedquotes (c : ascii) : bool := Ascii.eqb c DQUOTE.

(** [self.state]: [None], [' '], ['a'], a quote character, or the
    escape character. *)
Inductive state : Type :=
| st_eof
| st_space
| st_word
| st_quote (q : ascii)
| st_escape.

Definition is_quote_state (s : state) : bool :=
  match s with st_quote _ => true | _ => false end.

(** [nextchar != escapedstate] *)
Definition differs (c : ascii) (s : state) : bool :=
  match s with
  | st_quote q => negb (Ascii.eqb c q)
  | st_space => negb (Ascii.eqb c " ")
  | st_word => negb (Ascii.eqb c "a")
  | st_escape => negb (Ascii.eqb c BACKSLASH)
  | st_eof => true
  end.

(** [if self.token or (self.posix and quoted): break]: the token is
    handed out and the next [read_token] starts afresh. *)
Definition emits (token : string) (quoted : bool) : bool :=
  truthy token || quoted.

(** The end of [read_token]: an empty unquoted token is [None], which
    ends the iteration. *)
Definition last_token (token : string) (quoted : bool) : list string :=
  if emits token quoted then [token] else [].

(** All the [read_token] calls of [list(lex)], fused in one pass over
    the input.  [state] is [self.state], which survives from one call
    to the next; [quoted], [escapedstate] and [token] are reset when a
    token is handed out. *)
Fixpoint read_tokens (instream : list ascii) (st : state) (quoted : bool)
         (escapedstate : state) (token : string) : Outcome (list string) :=
  match instream with
  | [] =>
      match st with
      | st_eof => Returned []
      | st_space | st_word => Returned (last_token token quoted)
      | st_quote _ => Raised (ValueError "No closing quotation")
      | st_escape => Raised (ValueError "No escaped character")
      end
  | nextchar :: rest =>
      match st with
      | st_eof => Returned []
      | st_space =>
          if whitespace nextchar then
            if emits token quoted then
              toks <- read_tokens rest st_space false st_space EmptyString ;;
              Returned (token :: toks)
            else read_tokens rest st_space quoted escapedstate token
          else if escape nextchar then
            read_tokens rest st_escape quoted st_word token
          else if quotes nextchar then
            read_tokens rest (st_quote nextchar) quoted escapedstate token
          else
            read_tokens rest st_word quoted escapedstate
                        (String nextchar EmptyString)
      | st_quote q =>
          if Ascii.eqb nextchar q then
            read_tokens rest st_word true escapedstate token
          else if escape nextchar && escapedquotes q then
            read_tokens rest st_escape true (st_quote q) token
          else
            read_tokens rest (st_quote q) true escapedstate
                        (snoc token nextchar)
      | st_escape =>
          let token :=
            if is_quote_state escapedstate
               && negb (Ascii.eqb nextchar BACKSLASH)
               && differs nextchar escapedstate
            then snoc token BACKSLASH else token in
          read_tokens rest escapedstate quoted escapedstate
                      (snoc token nextchar)
      | st_word =>
          if whitespace nextchar then
            if emits token quoted then
              toks <- read_tokens rest st_space false st_space EmptyString ;;
              Returned (token :: toks)
            else read_tokens rest st_space quoted escapedstate token
          else if quotes nextchar then
            read_tokens rest (st_quote nextchar) quoted escapedstate token
          else if escape nextchar then
            read_tokens rest st_escape quoted st_word token
          else
            read_tokens rest st_word quoted escapedstate
                        (snoc token nextchar)
      end
  end.

Definition split (s : string) : Outcome (list string) :=
  read_tokens (list_ascii_of_string s) st_space false st_space EmptyString.

End shlex.

(* ------------------------------------------------------------------ *)
(** ** Text: [bytes.decode('utf-8')], [str.rstrip], newline translation *)

Definition in_range (lo hi : N) (c : ascii) : bool :=
  ((lo <=? N_of_ascii c) && (N_of_ascii c <=? hi))%N.

Definition continuation (c : ascii) : bool := in_range 128 191 c.

(** Well-formed UTF-8 byte sequences (no overlong forms, no surrogates,
    nothing above U+10FFFF), as the strict decoder accepts them. *)
Fixpoint utf8_valid (b : list ascii) : bool :=
  match b with
  | [] => true
  | c :: r =>
      if in_range 0 127 c then utf8_valid r
      else if in_range 194 223 c then
        match r with
        | c1 :: r1 => continuation c1 && utf8_valid r1
        | _ => false
        end
      else if in_range 224 239 c then
        match r with
        | c1 :: c2 :: r2 =>
            (if in_range 224 224 c then in_range 160 191 c1
             else if in_range 237 237 c then in_range 128 159 c1
             else continuation c1)
            && continuation c2 && utf8_valid r2
        | _ => false
        end
      else if in_range 240 244 c then
        match r with
        | c1 :: c2 :: c3 :: r3 =>
            (if in_range 240 240 c then in_range 144 191 c1
             else if in_range 244 244 c then in_range 128 143 c1
             else continuation c1)
            && continuation c2 && continuation c3 && utf8_valid r3
        | _ => false
        end
      else false
  end.

Definition decodable (b : string) : bool := utf8_valid (list_ascii_of_string b).

(** [s.rstrip('\n')] *)
Fixpoint rstrip_newlines (s : string) : string :=
  match s with
  | EmptyString => EmptyString
  | String c r =>
      match rstrip_newlines r with
      | EmptyString => if Ascii.eqb c LF then EmptyString else String c EmptyString
      | r' => String c r'
      end
  end.

(** [s.replace("\r\n", "\n")] *)
Fixpoint replace_crlf (s : string) : string :=
  match s with
  | EmptyString => EmptyString
  | String c r =>
      match r with
      | String c' r' =>
          if Ascii.eqb c CR && Ascii.eqb c' LF
          then String LF (replace_crlf r')
          else String c (replace_crlf r)
      | EmptyString => String c EmptyString
      end
  end.

(** [s.replace("\r", "\n")] *)
Fixpoint replace_cr (s : string) : string :=
  match s with
  | EmptyString => EmptyString
  | String c r => String (if Ascii.eqb c CR then LF else c) (replace_cr r)
  end.

Definition universal_newlines (s : string) : string :=
  replace_cr (replace_crlf s).

(* ------------------------------------------------------------------ *)
(** ** The operating system *)

(** What a spawned child does: the chunks it writes to either pipe, each
    with the time it is written at, the time it exits at (its pipes reach
    end of file then) and its exit status; and the time at which the
    call that spawned it comes back to an asynchronous caller, which may
    be after the child has written, or exited.  Every child exits at some
    time: a command that runs for ever is not in this model. *)
Record child : Type := {
  stdout_writes : list (Z * string);
  stderr_writes : list (Z * string);
  exit_at : Z;
  exit_status : Z;
  ready_at : Z
}.

Inductive spawn_result : Type :=
| spawn_failed (msg : string)
| spawned (c : child).

(** The environment a handler runs in: what executing an argument vector
    in a working directory does (a failure to spawn comes with the text
    of its [OSError]), the diagnostic the text codec gives for bytes it
    cannot decode, and how an argument vector is printed ([repr]). *)
Record world : Type := {
  exec : string -> list string -> spawn_result;
  codec_diag : string -> string;
  repr_args : list string -> string
}.

(** Everything written to a pipe, in order. *)
Definition written (ws : list (Z * string)) : string :=
  fold_right (fun w acc => snd w ++ acc) EmptyString ws.

Definition decode (w : world) (b : string) : Outcome string :=
  if decodable b then Returned b
  else Raised (UnicodeDecodeError (codec_diag w b)).

(* ------------------------------------------------------------------ *)
(** ** [subprocess.run(args, capture_output=True, text=True, cwd=..., timeout=...)] *)

Module subprocess.

Record CompletedProcess : Type := {
  stdout : string;
  stderr : string;
  returncode : Z
}.

(** [Popen._translate_newlines]: decode, then universal newlines. *)
Definition translate_newlines (w : world) (data : string) : Outcome string :=
  text <- decode w data ;;
  Returned (universal_newlines text).

(** The timeout that [poll] refuses, with the text of its
    [OverflowError]: the milliseconds must fit a C [int], and the
    nanoseconds a 64-bit integer. *)
Definition too_large (timeout : option Z) : option string :=
  match timeout with
  | Some t =>
      if t <? 2147484 then None
      else if t <? 9223372037 then Some "timeout is too large"
      else Some "timestamp too large to convert to C _PyTime_t"
  | None => None
  end.

(** The child is still running when [timeout] seconds have passed:
    [communicate] raises [TimeoutExpired]. *)
Definition expires (timeout : option Z) (c : child) : option Z :=
  match timeout with
  | Some t => if 1000 * t <? exit_at c then Some t else None
  | None => None
  end.

Definition run (w : world) (args : list string) (cwd : string)
           (timeout : option Z) : Outcome CompletedProcess :=
  match args with
  | [] => Raised (IndexError "list index out of range")
  | _ :: _ =>
      match exec w cwd args with
      | spawn_failed msg => Raised (OSError msg)
      | spawned c =>
          match too_large timeout with
          | Some msg => Raised (OverflowError msg)
          | None =>
              match expires timeout c with
              | Some t => Raised (TimeoutExpired (repr_args w args) t)
              | None =>
                  out <- translate_newlines w (written (stdout_writes c)) ;;
                  err <- translate_newlines w (written (stderr_writes c)) ;;
                  Returned {| stdout := out; stderr := err;
                              returncode := exit_status c |}
              end
          end
      end
  end.

End subprocess.

(* ------------------------------------------------------------------ *)
(** ** [POST /execute] *)

Record ExecuteRequest : Type := {
  command : string;
  timeout : option Z
}.

Record ExecuteResponse : Type := {
  stdout : string;
  stderr : string;
  exit_code : Z
}.

(** The request models of the two endpoints have the same fields. *)
Definition ExecuteStreamRequest : Type := ExecuteRequest.

(** The sandbox root every command runs in. *)
Definition cwd : string := "/app".

(** [f"{request.timeout}"] *)
Definition fmt_timeout (t : option Z) : string :=
  match t with
  | Some n => str_int n
  | None => "None"
  end.

(** The [try] block of [execute_command]. *)
Definition execute_try (w : world) (request : ExecuteRequest)
  : Outcome ExecuteResponse :=
  args <- shlex.split (command request) ;;
  process <- subprocess.run w args cwd (timeout request) ;;
  Returned {| stdout := subprocess.stdout process;
              stderr := subprocess.stderr process;
              exit_code := subprocess.returncode process |}.

Definition execute_command (w : world) (request : ExecuteRequest)
  : Outcome ExecuteResponse :=
  match execute_try w request with
  | Returned response => Returned response
  | Raised (TimeoutExpired _ _) =>
      Returned {| stdout := EmptyString;
                  stderr := "Command timed out after "
                            ++ fmt_timeout (timeout request) ++ " seconds";
                  exit_code := 124 |}
  | Raised e =>
      Returned {| stdout := EmptyString;
                  stderr := "Failed to execute command: " ++ str_exn e;
                  exit_code := 1 |}
  end.

(* ------------------------------------------------------------------ *)
(** ** [asyncio]: subprocesses, stream readers, [wait_for] *)

Module asyncio.

(** A pipe's reader: what has arrived and was not read yet, and the
    writes still to come. *)
Record StreamReader : Type := {
  buffer : string;
  incoming : list (Z * string)
}.

Record Process : Type := {
  proc : child;
  stdout : StreamReader;
  stderr : StreamReader
}.

(** [process.returncode] when read at time [now]: the event loop sets
    it as soon as the child has exited. *)
Definition returncode (p : Process) (now : Z) : option Z :=
  if exit_at (proc p) <=? now then Some (exit_status (proc p)) else None.

(** [create_subprocess_exec] on the unpacked [args], with both pipes
    and [cwd]; its first positional parameter [program] is required. *)
Definition create_subprocess_exec (w : world) (args : list string)
           (cwd : string) : Outcome Process :=
  match args with
  | [] => Raised (TypeError
      "create_subprocess_exec() missing 1 required positional argument: 'program'")
  | _ :: _ =>
      match exec w cwd args with
      | spawn_failed msg => Raised (OSError msg)
      | spawned c =>
          Returned {| proc := c;
                      stdout := {| buffer := EmptyString;
                                   incoming := stdout_writes c |};
                      stderr := {| buffer := EmptyString;
                                   incoming := stderr_writes c |} |}
      end
  end.

(** The first line of [buf], its newline included, and what follows it. *)
Fixpoint take_line (buf : string) : option (string * string) :=
  match buf with
  | EmptyString => None
  | String c r =>
      if Ascii.eqb c LF then Some (String c EmptyString, r)
      else match take_line r with
           | Some (l, r') => Some (String c l, r')
           | None => None
           end
  end.

(** The result of [await asyncio.wait_for(aw, timeout=...)]. *)
Inductive awaited (A : Type) : Type :=
| Got (a : A)
| TimeoutError.
Arguments Got {A} a.
Arguments TimeoutError {A}.

(** The limit of a [StreamReader], [2 ** 16] bytes. *)
Definition limit : Z := 65536.

(** The reader at time [now]: the transport feeds it what the child
    writes as it comes, whether a read is pending or not. *)
Fixpoint feed (now : Z) (buf : string) (incoming : list (Z * string))
  : StreamReader :=
  match incoming with
  | [] => {| buffer := buf; incoming := [] |}
  | (t, data) :: later =>
      if t <=? now then feed now (buf ++ data) later
      else {| buffer := buf; incoming := incoming |}
  end.

(** The wait of [readline] for a newline, from [now] to [deadline]: a
    complete line as soon as the buffer holds one; at end of file what is
    left, possibly nothing; a timeout leaves what has arrived in the
    buffer.  A line whose newline comes after more than [limit] bytes is
    dropped from the buffer, and a buffer of more than [limit] bytes with
    no newline is cleared: [readline] raises [ValueError].  The answer
    comes with the time it is given at. *)
Fixpoint readuntil (deadline eof_at now : Z) (buf : string)
         (incoming : list (Z * string))
  : awaited (Outcome string) * Z * StreamReader :=
  match take_line buf with
  | Some (line, rest) =>
      if limit <? Z.of_nat (String.length line) - 1
      then (Got (Raised (ValueError
                   "Separator is found, but chunk is longer than limit")),
            now, {| buffer := rest; incoming := incoming |})
      else (Got (Returned line), now,
            {| buffer := rest; incoming := incoming |})
  | None =>
      if limit <? Z.of_nat (String.length buf)
      then (Got (Raised (ValueError
                   "Separator is not found, and chunk exceed the limit")),
            now, {| buffer := EmptyString; incoming := incoming |})
      else
        match incoming with
        | [] =>
            if eof_at <=? deadline
            then (Got (Returned buf), Z.max now eof_at,
                  {| buffer := EmptyString; incoming := [] |})
            else (TimeoutError, deadline,
                  {| buffer := buf; incoming := [] |})
        | (t, data) :: later =>
            if t <=? deadline
            then readuntil deadline eof_at (Z.max now t) (buf ++ data) later
            else (TimeoutError, deadline,
                  {| buffer := buf; incoming := incoming |})
        end
  end.

(** [wait_for(reader.readline(), ...)] started at [now] and giving up
    at [deadline], on a reader that holds what has arrived by [now]. *)
Definition readline (deadline eof_at now : Z) (buf : string)
           (incoming : list (Z * string))
  : awaited (Outcome string) * Z * StreamReader :=
  let fed := feed now buf incoming in
  readuntil deadline eof_at now (buffer fed) (asyncio.incoming fed).

(** [wait_for(process.wait(), ...)] started at [now]. *)
Definition wait (deadline now : Z) (c : child) : awaited Z * Z :=
  if exit_at c <=? deadline
  then (Got (exit_status c), Z.max now (exit_at c))
  else (TimeoutError, deadline).

End asyncio.

(* ------------------------------------------------------------------ *)
(** ** [POST /execute/stream] *)

(** One server-sent event, [{"event": ..., "data": ...}]. *)
Record sse : Type := {
  event : string;
  data : string
}.

(** What the generator does that can be seen from outside: the events
    it yields, [process.kill()], and a completed [await process.wait()]. *)
Inductive action : Type :=
| Yield (e : sse)
| Kill
| Wait.

Definition done_data (code : Z) : string :=
  "{" ++ String DQUOTE "exit_code" ++ String DQUOTE ": " ++ str_int code ++ "}".

Definition stdout_event (line : string) : sse :=
  {| event := "stdout"; data := line |}.
Definition stderr_event (line : string) : sse :=
  {| event := "stderr"; data := line |}.
Definition error_event (msg : string) : sse :=
  {| event := "error"; data := msg |}.
Definition done_event (code : Z) : sse :=
  {| event := "done"; data := done_data code |}.

(** [asyncio.get_event_loop().time()] when the generator starts. *)
Definition start_time : Z := 0.

(** [request.timeout and (now - start_time) >= request.timeout] *)
Definition timeout_reached (t : option Z) (now : Z) : bool :=
  match t with
  | Some n => negb (n =? 0) && (1000 * n <=? now - start_time)
  | None => false
  end.

(** [if line := await ...: yield {"event": channel, "data":
    line.decode('utf-8').rstrip('\n')}], with [asyncio.TimeoutError]
    passed over, and the [ValueError] of [readline] not. *)
Definition forward (w : world) (channel : string)
           (r : asyncio.awaited (Outcome string)) : Outcome (list action) :=
  match r with
  | asyncio.Got (Returned line) =>
      if truthy line then
        text <- decode w line ;;
        Returned [Yield {| event := channel; data := rstrip_newlines text |}]
      else Returned []
  | asyncio.Got (Raised e) => Raised e
  | asyncio.TimeoutError => Returned []
  end.

(** The [except Exception as e] block of the generator; [process] is
    [None] when the exception came before the child was spawned. *)
Definition on_exception (process : option asyncio.Process) (now : Z)
           (e : exn) : list action :=
  ((match process with
    | Some p =>
        match asyncio.returncode p now with
        | None => [Kill; Wait]
        | Some _ => []
        end
    | None => []
    end)
   ++ [Yield (error_event ("Failed to execute command: " ++ str_exn e));
       Yield (done_event 1)])%list.

(** The timeout branch of the loop. *)
Definition on_timeout (request : ExecuteStreamRequest) : list action :=
  [Kill; Wait;
   Yield (error_event ("Command timed out after "
                       ++ fmt_timeout (timeout request) ++ " seconds"));
   Yield (done_event 124)].

(** One turn of [while process.returncode is None], taken at time [now]:
    either the generator is over, or the loop goes round again. *)
Inductive turn : Type :=
| Over (trace : list action)
| Again (trace : list action) (now : Z) (process : asyncio.Process).

Definition loop_turn (w : world) (request : ExecuteStreamRequest)
           (now : Z) (process : asyncio.Process) : turn :=
  match asyncio.returncode process now with
  | Some code => Over [Yield (done_event code)]
  | None =>
      if timeout_reached (timeout request) now then Over (on_timeout request)
      else
        let c := asyncio.proc process in
        let '(r1, now1, out) :=
          asyncio.readline (now + 100) (exit_at c) now
            (asyncio.buffer (asyncio.stdout process))
            (asyncio.incoming (asyncio.stdout process)) in
        let process1 := {| asyncio.proc := c; asyncio.stdout := out;
                           asyncio.stderr := asyncio.stderr process |} in
        match forward w "stdout" r1 with
        | Raised e => Over (on_exception (Some process1) now1 e)
        | Returned tr1 =>
            let '(r2, now2, err) :=
              asyncio.readline (now1 + 100) (exit_at c) now1
                (asyncio.buffer (asyncio.stderr process1))
                (asyncio.incoming (asyncio.stderr process1)) in
            let process2 := {| asyncio.proc := c; asyncio.stdout := out;
                               asyncio.stderr := err |} in
            match forward w "stderr" r2 with
            | Raised e => Over (tr1 ++ on_exception (Some process2) now2 e)%list
            | Returned tr2 =>
                match asyncio.wait (now2 + 10) now2 c with
                | (asyncio.Got _, now3) =>
                    Again (tr1 ++ tr2 ++ [Wait])%list now3 process2
                | (asyncio.TimeoutError, now3) =>
                    Again (tr1 ++ tr2)%list now3 process2
                end
            end
        end
  end.

(** The loop, for at most [fuel] turns. *)
Fixpoint stream_loop (fuel : nat) (w : world) (request : ExecuteStreamRequest)
         (now : Z) (process : asyncio.Process) : option (list action) :=
  match fuel with
  | O => None
  | S fuel' =>
      match loop_turn w request now process with
      | Over tr => Some tr
      | Again tr now' process' =>
          match stream_loop fuel' w request now' process' with
          | Some rest => Some (tr ++ rest)%list
          | None => None
          end
      end
  end.

(** Turns that are enough for a child that exits at [exit_at c], from
    the time the loop is entered at: a turn that does not end the loop
    takes ten milliseconds at least. *)
Definition turns (c : child) : nat := S (Z.to_nat (exit_at c - ready_at c)).

Definition event_generator (w : world) (request : ExecuteStreamRequest)
  : option (list action) :=
  match (args <- shlex.split (command request) ;;
         asyncio.create_subprocess_exec w args cwd) with
  | Raised e => Some (on_exception None start_time e)
  | Returned process =>
      stream_loop (turns (asyncio.proc process)) w request
                  (ready_at (asyncio.proc process)) process
  end.

(** The events of a trace, in the order they are yielded. *)
Fixpoint events (tr : list action) : list sse :=
  match tr with
  | [] => []
  | Yield e :: tr' => e :: events tr'
  | _ :: tr' => events tr'
  end.

(* ------------------------------------------------------------------ *)
(** ** Scenarios *)

(** A line of output, newline included. *)
Definition line (s : string) : string := snoc s LF.

(** A world in which running [argv] in the sandbox root spawns [c] and
    nothing else can be executed; its arguments are printed as those of
    the scenarios below are, between single quotes. *)
Definition world_with (argv : list string) (c : child) : world :=
  {| exec := fun dir args =>
       if String.eqb dir cwd && (if list_eq_dec string_dec args argv
                                 then true else false)
       then spawned c
       else spawn_failed "[Errno 2] No such file or directory";
     codec_diag := fun _ => "invalid start byte";
     repr_args := fun args =>
       "[" ++ String.concat ", " (map (fun a => "'" ++ a ++ "'") args) ++ "]" |}.

(** A child that writes nothing, takes [ms] milliseconds and succeeds. *)
Definition sleeps (ms : Z) : child :=
  {| stdout_writes := []; stderr_writes := [];
     exit_at := ms; exit_status := 0; ready_at := 0 |}.

(** [echo 'hello world'] *)
Definition echo_hello : child :=
  {| stdout_writes := [(1, line "hello world")]; stderr_writes := [];
     exit_at := 2; exit_status := 0; ready_at := 0 |}.

(** [printf 'one\r\ntwo\r\n'] *)
Definition printf_crlf : child :=
  {| stdout_writes := [(1, snoc (snoc "one" CR) LF ++ snoc (snoc "two" CR) LF)];
     stderr_writes := []; exit_at := 2; exit_status := 0; ready_at := 0 |}.

(** The same output as [echo_hello], written in two pieces by a slower
    child. *)
Definition echo_hello_slowly : child :=
  {| stdout_writes := [(40, "hello "); (90, line "world")]; stderr_writes := [];
     exit_at := 95; exit_status := 0; ready_at := 0 |}.

(** [Execute("echo 'hello world'")] *)
Definition hello_request : ExecuteRequest :=
  {| command := "echo 'hello world'"; timeout := None |}.
Definition hello_world : world := world_with ["echo"; "hello world"] echo_hello.
Definition hello_world_slowly : world :=
  world_with ["echo"; "hello world"] echo_hello_slowly.

Definition sleep_world : world := world_with ["sleep"; "5"] (sleeps 5000).

(** [Execute("printf 'one\r\ntwo\r\n'")] *)
Definition crlf_request : ExecuteRequest :=
  {| command := "printf 'one\r\ntwo\r\n'"; timeout := None |}.
Definition crlf_world : world :=
  world_with ["printf"; "one\r\ntwo\r\n"] printf_crlf.

(** Two runs of a command show the same behaviour when they fail to
    spawn alike, or write the same bytes to either pipe and exit with the
    same status; when they write and how long they take may differ. *)
Definition same_behaviour (r1 r2 : spawn_result) : Prop :=
  match r1, r2 with
  | spawn_failed m1, spawn_failed m2 => m1 = m2
  | spawned c1, spawned c2 =>
      written (stdout_writes c1) = written (stdout_writes c2)
      /\ written (stderr_writes c1) = written (stderr_writes c2)
      /\ exit_status c1 = exit_status c2
  | _, _ => False
  end.

(* ------------------------------------------------------------------ *)
(** ** Shapes of command lines *)

Definition chars (s : string) : list ascii := list_ascii_of_string s.

(** Only blanks: the characters [shlex] takes as whitespace. *)
Definition blank (s : string) : bool := forallb shlex.whitespace (chars s).

(** [c] does not occur in [s]. *)
Definition without (c : ascii) (s : string) : bool :=
  forallb (fun x => negb (Ascii.eqb x c)) (chars s).

(** [s] between two [q]. *)
Definition quoted_with (q : ascii) (s : string) : string :=
  String q (snoc s q).

(** POSIX.1-2017, Shell Command Language, 2.2.3 Double-Quotes: inside
    double quotes the backslash retains its special meaning as an escape
    character only when followed by one of [$], the backquote, the double
    quote, the backslash, or a newline. *)
Definition posix_escapable_in_dquotes (c : ascii) : bool :=
  Ascii.eqb c "$" || Ascii.eqb c "`" || Ascii.eqb c DQUOTE
  || Ascii.eqb c BACKSLASH || Ascii.eqb c LF.

(** The value POSIX gives the inside of a double-quoted region, with no
    expansion: an escaping backslash is removed, and a backslash and
    newline pair is a line continuation and is removed altogether. *)
Fixpoint posix_dquoted (body : list ascii) : string :=
  match body with
  | [] => EmptyString
  | c :: r =>
      if Ascii.eqb c BACKSLASH then
        match r with
        | c' :: r' =>
            if posix_escapable_in_dquotes c' then
              if Ascii.eqb c' LF then posix_dquoted r'
              else String c' (posix_dquoted r')
            else String c (String c' (posix_dquoted r'))
        | [] => String c EmptyString
        end
      else String c (posix_dquoted r)
  end.

(** A command line with an unterminated quote, and a blank one. *)
Definition open_quote_request : ExecuteRequest :=
  {| command := "echo 'hello world"; timeout := None |}.
Definition blank_request : ExecuteRequest :=
  {| command := "   "; timeout := Some 3 |}.

(** The events of a run. *)
Definition events_of (run : option (list action)) : list sse :=
  match run with
  | Some tr => events tr
  | None => []
  end.

(* ------------------------------------------------------------------ *)
(** ** Runs of the generator *)

(** An event of one of the two output channels. *)
Definition is_output (e : sse) : Prop :=
  event e = "stdout" \/ event e = "stderr".

(** A step that only yields an output event. *)
Definition yields_output (a : action) : Prop :=
  exists e, a = Yield e /\ is_output e.


(** The spawned process, as the generator first sees it. *)
Definition spawn (w : world) (request : ExecuteStreamRequest)
  : Outcome asyncio.Process :=
  args <- shlex.split (command request) ;;
  asyncio.create_subprocess_exec w args cwd.



(** How the events of a run can end for a spawned child [c]: with the
    child's exit status; with the timeout error and 124, at a time when
    the timeout was reached; or with the failure error and 1. *)
Inductive ending (c : child) (request : ExecuteStreamRequest)
  : list sse -> Prop :=
| ends_done :
    ending c request [done_event (exit_status c)]
| ends_timeout (now : Z) :
    timeout_reached (timeout request) now = true ->
    ending c request
      [error_event ("Command timed out after "
                    ++ fmt_timeout (timeout request) ++ " seconds");
       done_event 124]
| ends_failed (e : exn) :
    ending c request
      [error_event ("Failed to execute command: " ++ str_exn e); done_event 1].


(** [ExecuteStream("sh -c 'for i in 1 2 3; do echo Line $i; sleep 0.5; done'")] *)
Definition three_lines : child :=
  {| stdout_writes := [(1, line "Line 1"); (501, line "Line 2");
                       (1001, line "Line 3")];
     stderr_writes := []; exit_at := 1502; exit_status := 0; ready_at := 0 |}.
Definition three_lines_request : ExecuteStreamRequest :=
  {| command := "sh -c 'for i in 1 2 3; do echo Line $i; sleep 0.5; done'";
     timeout := None |}.
Definition three_lines_world : world :=
  world_with ["sh"; "-c"; "for i in 1 2 3; do echo Line $i; sleep 0.5; done"]
             three_lines.

(** [ExecuteStream("printf 'a\nb\nc\n'")]: three lines in one write, and
    the child exits at once. *)
Definition burst : child :=
  {| stdout_writes := [(1, line "a" ++ line "b" ++ line "c")];
     stderr_writes := []; exit_at := 2; exit_status := 0; ready_at := 0 |}.
Definition burst_request : ExecuteStreamRequest :=
  {| command := "printf 'a\nb\nc\n'"; timeout := None |}.
Definition burst_world : world := world_with ["printf"; "a\nb\nc\n"] burst.

(** [ExecuteStream("sh -c 'echo a; sleep 0.25; echo b'")]: the second
    line comes a quarter of a second after the first, just before the
    child exits. *)
Definition late_line : child :=
  {| stdout_writes := [(1, line "a"); (251, line "b")];
     stderr_writes := []; exit_at := 252; exit_status := 0; ready_at := 0 |}.
Definition late_line_request : ExecuteStreamRequest :=
  {| command := "sh -c 'echo a; sleep 0.25; echo b'"; timeout := None |}.
Definition late_line_world : world :=
  world_with ["sh"; "-c"; "echo a; sleep 0.25; echo b"] late_line.


(** [ExecuteStream("sleep 1", timeout=0)] and [Execute] of the same. *)
Definition sleep1_request (t : option Z) : ExecuteRequest :=
  {| command := "sleep 1"; timeout := t |}.
Definition sleep1_world : world := world_with ["sleep"; "1"] (sleeps 1000).


(* ------------------------------------------------------------------ *)
(** ** Lines and channels *)

(** The lines of what a pipe carries: each with its newline, but the
    last one when the output does not end with a newline. *)
Fixpoint lines_of (s : string) : list string :=
  match s with
  | EmptyString => []
  | String c r =>
      if Ascii.eqb c LF then String c EmptyString :: lines_of r
      else match lines_of r with
           | [] => [String c EmptyString]
           | l :: ls => String c l :: ls
           end
  end.

(** What a reader still has to deliver: its buffer and the writes to come. *)
Definition remaining (r : asyncio.StreamReader) : string :=
  asyncio.buffer r ++ written (asyncio.incoming r).

(** The line a read hands to the loop, if any. *)
Definition got (r : asyncio.awaited (Outcome string)) : list string :=
  match r with
  | asyncio.Got (Returned l) => if truthy l then [l] else []
  | asyncio.Got (Raised _) | asyncio.TimeoutError => []
  end.

(** The data of the events of one channel, in the order they are yielded. *)
Definition channel (name : string) (tr : list action) : list string :=
  map data (filter (fun e => String.eqb (event e) name) (events tr)).

(** [lines] are the first lines of [content], newlines stripped. *)
Definition delivered (lines : list string) (content : string) : Prop :=
  exists read rest,
    lines_of content = (read ++ rest)%list
    /\ lines = map rstrip_newlines read.

(** The process of a child that has just been spawned. *)
Definition started (c : child) : asyncio.Process :=
  {| asyncio.proc := c;
     asyncio.stdout := {| asyncio.buffer := EmptyString;
                          asyncio.incoming := stdout_writes c |};
     asyncio.stderr := {| asyncio.buffer := EmptyString;
                          asyncio.incoming := stderr_writes c |} |}.

(** A line that [readline] returns: without its newline it is no longer
    than the limit of the reader. *)
Definition short (l : string) : Prop :=
  Z.of_nat (String.length (rstrip_newlines l)) <= asyncio.limit.

(** Every line a reader still has to deliver is short and can be
    decoded. *)
Definition readable (r : asyncio.StreamReader) : Prop :=
  Forall (fun l => decodable l = true /\ short l) (lines_of (remaining r)).

(** A step that yields an output event or is a completed wait. *)
Definition quiet (a : action) : Prop := yields_output a \/ a = Wait.

(** A command that cannot be started, with the exception it raises in
    either endpoint: it does not parse, or its program cannot be spawned. *)
Definition cannot_start (w : world) (request : ExecuteRequest) (e : exn) : Prop :=
  shlex.split (command request) = Raised e
  \/ exists args msg,
       shlex.split (command request) = Returned args
       /\ args <> []
       /\ exec w cwd args = spawn_failed msg
       /\ e = OSError msg.

(** A command whose program does not exist. *)
Definition missing_request : ExecuteRequest :=
  {| command := "no-such-program --flag"; timeout := Some 5 |}.

(** The states [read_token] can be in while input is left, with an
    [escapedstate] to go back to after a backslash. *)
Definition sane (st esc : shlex.state) : Prop :=
  match st with
  | shlex.st_eof => False
  | shlex.st_escape =>
      match esc with
      | shlex.st_eof | shlex.st_escape => False
      | _ => True
      end
  | _ => True
  end.


(* ------------------------------------------------------------------ *)
(** ** Files: [POST /upload] and [GET /download/{file_path:path}] *)

Module os_path.

(** [s.endswith('/')] *)
Fixpoint ends_with_sep (s : string) : bool :=
  match s with
  | EmptyString => false
  | String c EmptyString => Ascii.eqb c "/"
  | String _ r => ends_with_sep r
  end.

(** [os.path.join(a, b)] for POSIX paths: an absolute [b] replaces [a]. *)
Definition join (a b : string) : string :=
  if String.prefix "/" b then b
  else if negb (truthy a) || ends_with_sep a then a ++ b
  else a ++ "/" ++ b.

End os_path.

(** What a path names: a regular file with the bytes it holds, or
    something else, as a directory or a device. *)
Inductive node : Type :=
| regular (content : string)
| special.

(** The files of the machine: what each path names, if anything; for a
    path that cannot be opened for writing, the text of the exception
    that [open(path, "wb")] raises; and, for bytes that cannot all be
    written to a path, the text of the exception that is raised from the
    [with] block, with the number of bytes written before it.  The
    exceptions are taken as [OSError]s: the endpoint shows their text
    only. *)
Record filesystem : Type := {
  nodes : string -> option node;
  refuses : string -> option string;
  fails : string -> string -> option (string * nat)
}.

(** [os.path.isfile(path)] *)
Definition isfile (fs : filesystem) (path : string) : bool :=
  match nodes fs path with
  | Some (regular _) => true
  | _ => false
  end.

(** The file system once the file opened at [path] holds [content]: a
    regular file is made or replaced, and what is no regular file stays
    what it is. *)
Definition store (fs : filesystem) (path content : string) : filesystem :=
  match nodes fs path with
  | Some special => fs
  | _ => {| nodes := fun p => if String.eqb p path then Some (regular content)
                              else nodes fs p;
            refuses := refuses fs;
            fails := fails fs |}
  end.

(** [with open(path, "wb") as f: f.write(content)]: opening truncates a
    regular file, or makes an empty one; a write that fails leaves what
    was written before. *)
Definition write_file (fs : filesystem) (path content : string)
  : filesystem * Outcome unit :=
  match refuses fs path with
  | Some msg => (fs, Raised (OSError msg))
  | None =>
      match fails fs path content with
      | Some (msg, n) =>
          (store fs path (String.substring 0 n content), Raised (OSError msg))
      | None => (store fs path content, Returned tt)
      end
  end.

(** An uploaded file: the name the client gave it, if any, and its bytes. *)
Record UploadFile : Type := {
  filename : option string;
  contents : string
}.

(** The answers of the two endpoints: the file at a path, or a JSON
    body [{"message": ...}] with a status code. *)
Inductive response : Type :=
| FileResponse (path media_type filename : string)
| JSONResponse (status_code : Z) (message : string).

(** The [try] block of [upload_file], with the file system it leaves;
    [os.path.join] raises for a file that has no name. *)
Definition upload_try (fs : filesystem) (file : UploadFile)
  : filesystem * Outcome response :=
  match filename file with
  | None =>
      (fs, Raised (TypeError
         "join() argument must be str, bytes, or os.PathLike object, not 'NoneType'"))
  | Some name =>
      let file_path := os_path.join "/app" name in
      match write_file fs file_path (contents file) with
      | (fs', Returned _) =>
          (fs', Returned (JSONResponse 200
                            ("File '" ++ name ++ "' uploaded successfully.")))
      | (fs', Raised e) => (fs', Raised e)
      end
  end.

Definition upload_file (fs : filesystem) (file : UploadFile)
  : filesystem * response :=
  match upload_try fs file with
  | (fs', Returned done) => (fs', done)
  | (fs', Raised e) =>
      (fs', JSONResponse 500 ("File upload failed: " ++ str_exn e))
  end.

Definition download_file (fs : filesystem) (file_path : string) : response :=
  let full_path := os_path.join "/app" file_path in
  if isfile fs full_path
  then FileResponse full_path "application/octet-stream" file_path
  else JSONResponse 404 "File not found".

Definition status (r : response) : Z :=
  match r with
  | FileResponse _ _ _ => 200
  | JSONResponse code _ => code
  end.

(** A machine with one regular file and the devices [/dev/null] and
    [/dev/full], in which no path under [/proc] can be opened for
    writing (there is no such file), [/dev/full] takes no byte, and a file under [/tmp] takes
    four bytes at most. *)
Definition small_disk : filesystem :=
  {| nodes := fun p => if String.eqb p "/etc/hostname" then Some (regular "sandbox")
                       else if String.eqb p "/dev/null" then Some special
                       else if String.eqb p "/dev/full" then Some special
                       else None;
     refuses := fun p => if String.prefix "/proc/" p
                         then Some ("[Errno 2] No such file or directory: '"
                                    ++ p ++ "'")
                         else None;
     fails := fun p content =>
                if String.eqb p "/dev/full"
                then if truthy content
                     then Some ("[Errno 28] No space left on device", 0%nat)
                     else None
                else if String.prefix "/tmp/" p
                     then if (4 <? String.length content)%nat
                          then Some ("[Errno 28] No space left on device", 4%nat)
                          else None
                     else None |}.

Definition notes_upload : UploadFile :=
  {| filename := Some "notes.txt"; contents := "remember the milk" |}.

(** The path a file name stands for in the two file endpoints: itself
    when it is absolute, else the name under the sandbox root. *)
Definition resolved (name : string) : string :=
  if String.prefix "/" name then name else "/app/" ++ name.


(* ------------------------------------------------------------------ *)
(** ** The words of a command line *)

(** The characters that separate words: space, tab, carriage return and
    line feed. *)
Definition blank_char (c : ascii) : bool :=
  Ascii.eqb c " " || Ascii.eqb c TAB || Ascii.eqb c CR || Ascii.eqb c LF.

Definition blanks (s : string) : bool := forallb blank_char (chars s).

(** The texts of the elements of a list, one after the other. *)
Definition glue {A : Type} (f : A -> string) (l : list A) : string :=
  fold_right (fun x acc => f x ++ acc) EmptyString l.

(** What stands between two double quotes: a character that is neither
    a double quote nor a backslash, or a backslash and the character
    after it. *)
Inductive in_dquotes : Type :=
| dq_char (c : ascii)
| dq_escape (c : ascii).

Definition in_dquotes_ok (i : in_dquotes) : bool :=
  match i with
  | dq_char c => negb (Ascii.eqb c DQUOTE) && negb (Ascii.eqb c BACKSLASH)
  | dq_escape _ => true
  end.

Definition in_dquotes_text (i : in_dquotes) : string :=
  match i with
  | dq_char c => String c EmptyString
  | dq_escape c => String BACKSLASH (String c EmptyString)
  end.

(** Inside double quotes a backslash escapes a double quote or a
    backslash, and is a character like any other before anything else. *)
Definition in_dquotes_value (i : in_dquotes) : string :=
  match i with
  | dq_char c => String c EmptyString
  | dq_escape c =>
      if Ascii.eqb c DQUOTE || Ascii.eqb c BACKSLASH
      then String c EmptyString
      else String BACKSLASH (String c EmptyString)
  end.

(** The pieces a word is written with: a character that is no blank, no
    quote and no backslash; a backslash and the character after it; a
    region in single quotes, which holds no single quote; a region in
    double quotes. *)
Inductive piece : Type :=
| bare (c : ascii)
| escaped (c : ascii)
| squoted (body : string)
| dquoted (items : list in_dquotes).

Definition piece_ok (p : piece) : bool :=
  match p with
  | bare c =>
      negb (blank_char c) && negb (Ascii.eqb c SQUOTE)
      && negb (Ascii.eqb c DQUOTE) && negb (Ascii.eqb c BACKSLASH)
  | escaped _ => true
  | squoted body => without SQUOTE body
  | dquoted items => forallb in_dquotes_ok items
  end.

(** A piece as it is written in the command line. *)
Definition piece_text (p : piece) : string :=
  match p with
  | bare c => String c EmptyString
  | escaped c => String BACKSLASH (String c EmptyString)
  | squoted body => String SQUOTE (snoc body SQUOTE)
  | dquoted items => String DQUOTE (snoc (glue in_dquotes_text items) DQUOTE)
  end.

(** What a piece adds to the argument. *)
Definition piece_value (p : piece) : string :=
  match p with
  | bare c => String c EmptyString
  | escaped c => String c EmptyString
  | squoted body => body
  | dquoted items => glue in_dquotes_value items
  end.

Definition quoting (p : piece) : bool :=
  match p with
  | squoted _ | dquoted _ => true
  | _ => false
  end.

(** A word is one piece or more, with nothing between them. *)
Definition word_ok (w : list piece) : bool :=
  match w with
  | [] => false
  | _ :: _ => forallb piece_ok w
  end.

Definition word_text (w : list piece) : string := glue piece_text w.
Definition word_value (w : list piece) : string := glue piece_value w.

(** A gap between two words: one blank or more. *)
Definition gap_ok (g : string) : bool := truthy g && blanks g.

(** Words, each with the gap that follows it. *)
Definition followed (complete : list (list piece * string)) : string :=
  glue (fun wg => word_text (fst wg) ++ snd wg) complete.

Definition followed_ok (complete : list (list piece * string)) : bool :=
  forallb (fun wg => word_ok (fst wg) && gap_ok (snd wg)) complete.

Definition values (complete : list (list piece * string)) : list string :=
  map (fun wg => word_value (fst wg)) complete.

(** How a command line can stop in the middle of a word: after a
    backslash, inside single quotes, inside double quotes, or inside
    double quotes after a backslash. *)
Inductive stop : Type :=
| dangling_backslash
| open_squote (body : string)
| open_dquote (items : list in_dquotes)
| open_dquote_backslash (items : list in_dquotes).

Definition stop_ok (e : stop) : bool :=
  match e with
  | dangling_backslash => true
  | open_squote body => without SQUOTE body
  | open_dquote items | open_dquote_backslash items => forallb in_dquotes_ok items
  end.

Definition stop_text (e : stop) : string :=
  match e with
  | dangling_backslash => String BACKSLASH EmptyString
  | open_squote body => String SQUOTE body
  | open_dquote items => String DQUOTE (glue in_dquotes_text items)
  | open_dquote_backslash items =>
      String DQUOTE (snoc (glue in_dquotes_text items) BACKSLASH)
  end.

(** What [str(e)] is for the [ValueError] of a line that stops so. *)
Definition stop_error (e : stop) : string :=
  match e with
  | dangling_backslash | open_dquote_backslash _ => "No escaped character"
  | open_squote _ | open_dquote _ => "No closing quotation"
  end.

(** The three shapes of a command line: blanks only; words separated by
    gaps, between blanks; and such words, followed by a word that is not
    finished. *)
Inductive shape : Type :=
| blank_line (lead : string)
| words (lead : string) (complete : list (list piece * string))
        (last : list piece) (tail : string)
| unfinished (lead : string) (complete : list (list piece * string))
             (partial : list piece) (e : stop).

Definition shape_ok (sh : shape) : bool :=
  match sh with
  | blank_line lead => blanks lead
  | words lead complete last tail =>
      blanks lead && followed_ok complete && word_ok last && blanks tail
  | unfinished lead complete partial e =>
      blanks lead && followed_ok complete && forallb piece_ok partial
      && stop_ok e
  end.

Definition shape_text (sh : shape) : string :=
  match sh with
  | blank_line lead => lead
  | words lead complete last tail =>
      lead ++ followed complete ++ word_text last ++ tail
  | unfinished lead complete partial e =>
      lead ++ followed complete ++ word_text partial ++ stop_text e
  end.

(** The arguments a line of each shape stands for, or the error. *)
Definition shape_split (sh : shape) : Outcome (list string) :=
  match sh with
  | blank_line _ => Returned []
  | words _ complete last _ => Returned (values complete ++ [word_value last])%list
  | unfinished _ _ _ e => Raised (ValueError (stop_error e))
  end.

(** The shape of a line and of one more character that is no blank and
    starts a piece of the word [partial]. *)
Definition begin_piece (lead : string) (complete : list (list piece * string))
           (partial : list piece) (c : ascii) : shape :=
  if Ascii.eqb c BACKSLASH then unfinished lead complete partial dangling_backslash
  else if Ascii.eqb c SQUOTE
       then unfinished lead complete partial (open_squote EmptyString)
  else if Ascii.eqb c DQUOTE then unfinished lead complete partial (open_dquote [])
  else words lead complete (partial ++ [bare c]) EmptyString.

(** The shape of a line of shape [sh] and of one more character. *)
Definition shape_step (sh : shape) (c : ascii) : shape :=
  match sh with
  | blank_line lead =>
      if blank_char c then blank_line (snoc lead c)
      else begin_piece lead [] [] c
  | words lead complete last tail =>
      if blank_char c then words lead complete last (snoc tail c)
      else if truthy tail
           then begin_piece lead (complete ++ [(last, tail)]) [] c
           else begin_piece lead complete last c
  | unfinished lead complete partial e =>
      match e with
      | dangling_backslash =>
          words lead complete (partial ++ [escaped c]) EmptyString
      | open_squote body =>
          if Ascii.eqb c SQUOTE
          then words lead complete (partial ++ [squoted body]) EmptyString
          else unfinished lead complete partial (open_squote (snoc body c))
      | open_dquote items =>
          if Ascii.eqb c DQUOTE
          then words lead complete (partial ++ [dquoted items]) EmptyString
          else if Ascii.eqb c BACKSLASH
               then unfinished lead complete partial (open_dquote_backslash items)
               else unfinished lead complete partial
                               (open_dquote (items ++ [dq_char c]))
      | open_dquote_backslash items =>
          unfinished lead complete partial (open_dquote (items ++ [dq_escape c]))
      end
  end.

(** The shape of a command line, read from left to right. *)
Definition shape_of (s : string) : shape :=
  fold_left shape_step (chars s) (blank_line EmptyString).

(** [echo --msg="hello world" a\ b 'it''s'], and the same line cut
    inside its double quotes. *)
Definition quoted_line : shape :=
  words EmptyString
        [([bare "e"; bare "c"; bare "h"; bare "o"], " ");
         ([bare "-"; bare "-"; bare "m"; bare "s"; bare "g"; bare "=";
           dquoted [dq_char "h"; dq_char "e"; dq_char "l"; dq_char "l";
                    dq_char "o"; dq_char " "; dq_char "w"; dq_char "o";
                    dq_char "r"; dq_char "l"; dq_char "d"]], " ");
         ([bare "a"; escaped " "; bare "b"], " ")]
        [squoted "it"; squoted "s"] EmptyString.

Definition cut_line : shape :=
  unfinished EmptyString
             [([bare "e"; bare "c"; bare "h"; bare "o"], " ")]
             [bare "-"; bare "-"; bare "m"; bare "s"; bare "g"; bare "="]
             (open_dquote [dq_char "h"; dq_char "e"; dq_char "l"; dq_char "l";
                           dq_char "o"; dq_char " "; dq_char "w"]).

(* ================================================================== *)
(** * Properties *)

(** ** The parser on the commands of [tester.py] and on small inputs *)

Example split_hello :
  shlex.split "echo 'hello world'" = Returned ["echo"; "hello world"].
Proof. reflexivity. Qed.

Example split_tester_stream :
  shlex.split "sh -c 'for i in 1 2 3; do echo Line $i; sleep 0.5; done'"
  = Returned ["sh"; "-c"; "for i in 1 2 3; do echo Line $i; sleep 0.5; done"].
Proof. reflexivity. Qed.

Example split_empty_quotes : shlex.split "a '' b" = Returned ["a"; EmptyString; "b"].
Proof. reflexivity. Qed.

Example split_glued_quotes : shlex.split "a''b" = Returned ["ab"].
Proof. reflexivity. Qed.

Example split_escaped_space : shlex.split "a\ b" = Returned ["a b"].
Proof. reflexivity. Qed.

Example split_open_quote :
  shlex.split "a 'b" = Raised (ValueError "No closing quotation").
Proof. reflexivity. Qed.

Example split_dangling_escape :
  shlex.split "a\" = Raised (ValueError "No escaped character").
Proof. reflexivity. Qed.

(** ** [execute_command] *)

Lemma read_tokens_raises (l : list ascii) :
  forall st quoted esc tok e,
    shlex.read_tokens l st quoted esc tok = Raised e ->
    e = ValueError "No closing quotation" \/ e = ValueError "No escaped character".
Proof.
  induction l as [|c l IH]; intros st quoted esc tok e; cbn [shlex.read_tokens].
  - destruct st; intros H; inversion H; subst; auto.
  - destruct st.
    + discriminate.
    + destruct (shlex.whitespace c); [destruct (shlex.emits tok quoted)|].
      * destruct (shlex.read_tokens l shlex.st_space false shlex.st_space EmptyString) eqn:E;
          cbn [bind]; intros H; [discriminate|].
        inversion H; subst. eapply IH; eassumption.
      * apply IH.
      * destruct (shlex.escape c); [apply IH|].
        destruct (shlex.quotes c); apply IH.
    + destruct (shlex.whitespace c); [destruct (shlex.emits tok quoted)|].
      * destruct (shlex.read_tokens l shlex.st_space false shlex.st_space EmptyString) eqn:E;
          cbn [bind]; intros H; [discriminate|].
        inversion H; subst. eapply IH; eassumption.
      * apply IH.
      * destruct (shlex.quotes c); [apply IH|].
        destruct (shlex.escape c); apply IH.
    + destruct (Ascii.eqb c q); [apply IH|].
      destruct (shlex.escape c && shlex.escapedquotes q); apply IH.
    + apply IH.
Qed.

Lemma split_raises (s : string) (e : exn) :
  shlex.split s = Raised e ->
  e = ValueError "No closing quotation" \/ e = ValueError "No escaped character".
Proof. apply read_tokens_raises. Qed.

Lemma run_raises (w : world) (args : list string) (t : option Z) (e : exn) :
  subprocess.run w args cwd t = Raised e ->
  match e with
  | TimeoutExpired _ n =>
      t = Some n /\ exists c, exec w cwd args = spawned c /\ 1000 * n < exit_at c
  | _ => True
  end.
Proof.
  unfold subprocess.run. destruct args as [|a args].
  - intros H; inversion H; exact I.
  - destruct (exec w cwd (a :: args)) as [msg|c] eqn:E.
    + intros H; inversion H; exact I.
    + destruct (subprocess.too_large t); [intros H; inversion H; exact I|].
      unfold subprocess.expires. destruct t as [n|].
      * destruct (1000 * n <? exit_at c) eqn:L.
        -- intros H; inversion H; subst. split; [reflexivity|].
           exists c. split; [reflexivity|]. apply Z.ltb_lt; exact L.
        -- unfold subprocess.translate_newlines, decode.
           destruct (decodable (written (stdout_writes c))); cbn [bind];
             [|intros H; inversion H; exact I].
           destruct (decodable (written (stderr_writes c))); cbn [bind];
             intros H; inversion H; exact I.
      * unfold subprocess.translate_newlines, decode.
        destruct (decodable (written (stdout_writes c))); cbn [bind];
          [|intros H; inversion H; exact I].
        destruct (decodable (written (stderr_writes c))); cbn [bind];
          intros H; inversion H; exact I.
Qed.

Lemma run_returns (w : world) (args : list string) (t : option Z)
      (p : subprocess.CompletedProcess) :
  subprocess.run w args cwd t = Returned p ->
  exists c, exec w cwd args = spawned c
            /\ subprocess.returncode p = exit_status c
            /\ subprocess.stdout p = universal_newlines (written (stdout_writes c))
            /\ subprocess.stderr p = universal_newlines (written (stderr_writes c)).
Proof.
  unfold subprocess.run. destruct args as [|a args]; [discriminate|].
  destruct (exec w cwd (a :: args)) as [msg|c]; [discriminate|].
  destruct (subprocess.too_large t); [discriminate|].
  destruct (subprocess.expires t c); [discriminate|].
  unfold subprocess.translate_newlines, decode.
  destruct (decodable (written (stdout_writes c))); cbn [bind]; [|discriminate].
  destruct (decodable (written (stderr_writes c))); cbn [bind]; [|discriminate].
  intros H; inversion H; subst; cbn. exists c; repeat split.
Qed.

(** What [execute_command] answers when its [try] block raises. *)
Lemma execute_command_raised (w : world) (request : ExecuteRequest) (e : exn) :
  execute_try w request = Raised e ->
  execute_command w request =
  Returned
    match e with
    | TimeoutExpired _ _ =>
        {| stdout := EmptyString;
           stderr := "Command timed out after "
                     ++ fmt_timeout (timeout request) ++ " seconds";
           exit_code := 124 |}
    | _ =>
        {| stdout := EmptyString;
           stderr := "Failed to execute command: " ++ str_exn e;
           exit_code := 1 |}
    end.
Proof.
  unfold execute_command. intros ->. destruct e; reflexivity.
Qed.

Lemma execute_try_split_raised (w : world) (request : ExecuteRequest) (e : exn) :
  shlex.split (command request) = Raised e -> execute_try w request = Raised e.
Proof. unfold execute_try. intros ->. reflexivity. Qed.

Lemma execute_command_parse_error (w : world) (request : ExecuteRequest) (e : exn) :
  shlex.split (command request) = Raised e ->
  execute_command w request =
  Returned {| stdout := EmptyString;
              stderr := "Failed to execute command: " ++ str_exn e;
              exit_code := 1 |}.
Proof.
  intros H. rewrite (execute_command_raised w request e).
  - destruct (split_raises _ _ H) as [-> | ->]; reflexivity.
  - apply execute_try_split_raised; exact H.
Qed.

Lemma execute_try_run (w : world) (request : ExecuteRequest) (args : list string) :
  shlex.split (command request) = Returned args ->
  execute_try w request =
  (process <- subprocess.run w args cwd (timeout request) ;;
   Returned {| stdout := subprocess.stdout process;
               stderr := subprocess.stderr process;
               exit_code := subprocess.returncode process |}).
Proof. unfold execute_try. intros ->. reflexivity. Qed.

(** C1. [execute_command] never raises: for every command and timeout it
    returns a response, whose exit code is 124, 1 or the exit status of
    the child the command spawned; a command that does not parse, a
    failure to spawn and any other exception of [subprocess.run] give 1,
    its [TimeoutExpired] gives 124. *)
Theorem execute_command_never_raises (w : world) (request : ExecuteRequest) :
  exists response,
    execute_command w request = Returned response
    /\ (exit_code response = 124 \/ exit_code response = 1
        \/ exists args c,
             shlex.split (command request) = Returned args
             /\ exec w cwd args = spawned c
             /\ exit_code response = exit_status c)
    /\ (forall e, shlex.split (command request) = Raised e ->
                  exit_code response = 1)
    /\ (forall args msg, shlex.split (command request) = Returned args ->
                         exec w cwd args = spawn_failed msg ->
                         exit_code response = 1)
    /\ (forall args e, shlex.split (command request) = Returned args ->
                       subprocess.run w args cwd (timeout request) = Raised e ->
                       exit_code response
                       = match e with TimeoutExpired _ _ => 124 | _ => 1 end).
Proof.
  destruct (shlex.split (command request)) as [args|e] eqn:S.
  - rewrite <- S.
    destruct (subprocess.run w args cwd (timeout request)) as [p|e] eqn:R.
    + exists {| stdout := subprocess.stdout p; stderr := subprocess.stderr p;
                exit_code := subprocess.returncode p |}.
      assert (X : execute_command w request
                  = Returned {| stdout := subprocess.stdout p;
                                stderr := subprocess.stderr p;
                                exit_code := subprocess.returncode p |}).
      { unfold execute_command. rewrite (execute_try_run w request args S), R.
        reflexivity. }
      destruct (run_returns _ _ _ _ R) as (c & E & C & _).
      split; [exact X|]. split; [|split; [|split]].
      * right; right. exists args, c. cbn. auto.
      * intros e He. congruence.
      * intros args' msg Ha E'. assert (args' = args) by congruence. subst.
        congruence.
      * intros args' e Ha R'. assert (args' = args) by congruence. subst.
        congruence.
    + assert (T : execute_try w request = Raised e).
      { rewrite (execute_try_run w request args S), R. reflexivity. }
      eexists. split; [apply (execute_command_raised w request e T)|].
      split; [|split; [|split]].
      * destruct e; cbn; auto.
      * intros e' He. congruence.
      * intros args' msg Ha E'. assert (args' = args) by congruence. subst.
        pose proof (run_raises _ _ _ _ R) as Q.
        destruct e; try reflexivity.
        destruct Q as (_ & c & E & _). congruence.
      * intros args' e' Ha R'. assert (args' = args) by congruence. subst.
        assert (e' = e) by congruence. subst. destruct e; reflexivity.
  - eexists. split; [apply (execute_command_parse_error w request e S)|].
    split; [|split; [|split]]; cbn; auto; intros; congruence.
Qed.

(** [subprocess.run] on a child that outlives a timeout that [poll]
    takes. *)
Lemma run_expired (w : world) (args : list string) (c : child) (n : Z) :
  args <> [] ->
  exec w cwd args = spawned c ->
  n < 2147484 ->
  1000 * n < exit_at c ->
  subprocess.run w args cwd (Some n)
  = Raised (TimeoutExpired (repr_args w args) n).
Proof.
  intros A E B L. unfold subprocess.run. destruct args as [|a args]; [congruence|].
  rewrite E. unfold subprocess.too_large, subprocess.expires.
  apply Z.ltb_lt in B, L. rewrite B, L. reflexivity.
Qed.




(** From 2147484 seconds on the timeout is refused, whatever the child
    does: the response is the failure with exit code 1. *)
Lemma execute_command_overflow (w : world) (request : ExecuteRequest)
      (args : list string) (c : child) (n : Z) :
  shlex.split (command request) = Returned args ->
  args <> [] ->
  exec w cwd args = spawned c ->
  timeout request = Some n ->
  2147484 <= n ->
  exists msg,
    execute_command w request =
    Returned {| stdout := EmptyString;
                stderr := "Failed to execute command: " ++ msg;
                exit_code := 1 |}.
Proof.
  intros S A E T B.
  assert (X : exists msg, subprocess.run w args cwd (timeout request)
                          = Raised (OverflowError msg)).
  { unfold subprocess.run. destruct args as [|a args]; [congruence|].
    rewrite E, T. unfold subprocess.too_large.
    assert ((n <? 2147484) = false) as -> by (apply Z.ltb_ge; exact B).
    destruct (n <? 9223372037); eexists; reflexivity. }
  destruct X as [msg R]. exists msg.
  rewrite (execute_command_raised w request (OverflowError msg)); [reflexivity|].
  rewrite (execute_try_run w request args S), R. reflexivity.
Qed.

(** C6, as stated, fails: the child of [printf 'one\r\ntwo\r\n'] writes
    its lines with carriage returns, the response holds them without. *)
Lemma execute_command_rewrites_newlines :
  exec crlf_world cwd ["printf"; "one\r\ntwo\r\n"] = spawned printf_crlf
  /\ exists response,
       execute_command crlf_world crlf_request = Returned response
       /\ exit_code response = exit_status printf_crlf
       /\ stdout response = line "one" ++ line "two"
       /\ stdout response <> written (stdout_writes printf_crlf).
Proof.
  split; [reflexivity|].
  eexists. split; [vm_compute; reflexivity|].
  cbn. split; [reflexivity|]. split; [reflexivity|]. discriminate.
Qed.

(** C6, amended.  With no timeout, for a command that parses and spawns
    a child whose output on either pipe is decodable text, the response
    carries the child's exit status, and as stdout and stderr all the
    child wrote to the pipe, decoded, with every carriage return and line
    feed pair, and every other carriage return, turned into a line feed. *)
Theorem execute_command_completed (w : world) (request : ExecuteRequest)
        (args : list string) (c : child) :
  timeout request = None ->
  shlex.split (command request) = Returned args ->
  args <> [] ->
  exec w cwd args = spawned c ->
  decodable (written (stdout_writes c)) = true ->
  decodable (written (stderr_writes c)) = true ->
  execute_command w request =
  Returned {| stdout := universal_newlines (written (stdout_writes c));
              stderr := universal_newlines (written (stderr_writes c));
              exit_code := exit_status c |}.
Proof.
  intros T S A E Do De.
  unfold execute_command. rewrite (execute_try_run w request args S).
  unfold subprocess.run. destruct args as [|a args]; [congruence|].
  rewrite E, T. cbn [subprocess.expires].
  unfold subprocess.translate_newlines, decode. rewrite Do, De. reflexivity.
Qed.

Lemma execute_command_completed_witness :
  execute_command hello_world hello_request =
  Returned {| stdout := line "hello world"; stderr := EmptyString;
              exit_code := 0 |}.
Proof.
  apply (execute_command_completed hello_world hello_request
           ["echo"; "hello world"] echo_hello).
  - reflexivity.
  - reflexivity.
  - discriminate.
  - reflexivity.
  - reflexivity.
  - reflexivity.
Defined.

(** Output that is not decodable is a failure, whatever the child's status. *)
Lemma execute_command_undecodable (w : world) (request : ExecuteRequest)
      (args : list string) (c : child) :
  timeout request = None ->
  shlex.split (command request) = Returned args ->
  args <> [] ->
  exec w cwd args = spawned c ->
  decodable (written (stdout_writes c)) = false ->
  execute_command w request =
  Returned {| stdout := EmptyString;
              stderr := "Failed to execute command: "
                        ++ codec_diag w (written (stdout_writes c));
              exit_code := 1 |}.
Proof.
  intros T S A E Do.
  unfold execute_command. rewrite (execute_try_run w request args S).
  unfold subprocess.run. destruct args as [|a args]; [congruence|].
  rewrite E, T. cbn [subprocess.expires].
  unfold subprocess.translate_newlines, decode. rewrite Do. reflexivity.
Qed.

(** Text without carriage returns is left as it is. *)
Lemma universal_newlines_without_cr (s : string) :
  Forall (fun c => c <> CR) (list_ascii_of_string s) ->
  universal_newlines s = s.
Proof.
  unfold universal_newlines.
  assert (A : forall s, Forall (fun c => c <> CR) (list_ascii_of_string s) ->
                        replace_crlf s = s).
  { induction s0 as [|c r IH]; [reflexivity|].
    cbn [list_ascii_of_string]. intros F. inversion F as [|? ? Hc Hr]; subst.
    cbn [replace_crlf]. destruct r as [|c' r']; [reflexivity|].
    apply Ascii.eqb_neq in Hc. rewrite Hc. cbn [andb].
    f_equal. apply IH. exact Hr. }
  assert (B : forall s, Forall (fun c => c <> CR) (list_ascii_of_string s) ->
                        replace_cr s = s).
  { induction s0 as [|c r IH]; [reflexivity|]. cbn [list_ascii_of_string replace_cr].
    intros F. inversion F as [|? ? Hc Hr]; subst.
    apply Ascii.eqb_neq in Hc. rewrite Hc. f_equal. apply IH. exact Hr. }
  intros F. rewrite (A s F). apply B. exact F.
Qed.

(** C10. With no timeout, two invocations of [execute_command] on the
    same command, in worlds where the command shows the same behaviour,
    return the same stdout and the same exit code. *)
Theorem execute_command_deterministic (w1 w2 : world) (request : ExecuteRequest) :
  timeout request = None ->
  (forall args, shlex.split (command request) = Returned args ->
                same_behaviour (exec w1 cwd args) (exec w2 cwd args)) ->
  exists r1 r2,
    execute_command w1 request = Returned r1
    /\ execute_command w2 request = Returned r2
    /\ stdout r1 = stdout r2
    /\ exit_code r1 = exit_code r2.
Proof.
  intros T H. unfold execute_command, execute_try.
  destruct (shlex.split (command request)) as [args|e] eqn:S; cbn [bind].
  - specialize (H args eq_refl). unfold subprocess.run.
    destruct args as [|a args]; cbn [bind].
    + do 2 eexists. repeat split.
    + rewrite T. cbn [subprocess.expires].
      destruct (exec w1 cwd (a :: args)) as [m1|c1],
               (exec w2 cwd (a :: args)) as [m2|c2]; cbn in H; try contradiction.
      * subst. cbn [bind]. do 2 eexists. repeat split.
      * destruct H as (Ho & He & Hs).
        unfold subprocess.translate_newlines, decode. rewrite Ho, He, Hs.
        destruct (decodable (written (stdout_writes c2))); cbn [bind].
        -- destruct (decodable (written (stderr_writes c2))); cbn [bind];
             do 2 eexists; repeat split.
        -- do 2 eexists. repeat split.
  - destruct (split_raises _ _ S) as [-> | ->]; do 2 eexists; repeat split.
Qed.

Lemma execute_command_deterministic_witness :
  exists r1 r2,
    execute_command hello_world hello_request = Returned r1
    /\ execute_command hello_world_slowly hello_request = Returned r2
    /\ stdout r1 = stdout r2
    /\ exit_code r1 = exit_code r2.
Proof.
  apply (execute_command_deterministic hello_world hello_world_slowly hello_request).
  - reflexivity.
  - intros args S. vm_compute in S. inversion S; subst. cbn.
    repeat split.
Defined.

(** ** [shlex.split] *)

Lemma chars_app (a b : string) : chars (a ++ b) = (chars a ++ chars b)%list.
Proof. induction a as [|c a IH]; cbn; [reflexivity|]. f_equal. exact IH. Qed.

Lemma append_nil_r (s : string) : s ++ EmptyString = s.
Proof. induction s as [|c s IH]; cbn; [reflexivity|]. f_equal. exact IH. Qed.

Lemma append_assoc (a b c : string) : (a ++ b) ++ c = a ++ (b ++ c).
Proof. induction a as [|x a IH]; cbn; [reflexivity|]. f_equal. exact IH. Qed.

Lemma snoc_append (s : string) (c : ascii) (t : string) :
  snoc s c ++ t = s ++ String c t.
Proof. unfold snoc. induction s as [|x s IH]; cbn; [reflexivity|]. f_equal. exact IH. Qed.

Lemma snoc_chars (s : string) (c : ascii) : chars (snoc s c) = (chars s ++ [c])%list.
Proof. unfold snoc. rewrite chars_app. reflexivity. Qed.

(** Blanks before a token are passed over. *)
Lemma read_tokens_skip_blank (gap rest : list ascii) :
  forallb shlex.whitespace gap = true ->
  shlex.read_tokens (gap ++ rest) shlex.st_space false shlex.st_space EmptyString
  = shlex.read_tokens rest shlex.st_space false shlex.st_space EmptyString.
Proof.
  induction gap as [|c gap IH]; cbn [forallb app]; [reflexivity|].
  intros H. apply andb_true_iff in H as [Hc Hg].
  cbn [shlex.read_tokens]. rewrite Hc. cbn. apply IH. exact Hg.
Qed.

(** A blank command has no token. *)
Lemma split_blank (s : string) : blank s = true -> shlex.split s = Returned [].
Proof.
  intros H. unfold shlex.split. fold (chars s).
  rewrite <- (app_nil_r (chars s)).
  rewrite (read_tokens_skip_blank (chars s) [] H). reflexivity.
Qed.

(** ** Reading the pieces of a word *)

Lemma chars_cons (c : ascii) (s : string) : chars (String c s) = c :: chars s.
Proof. reflexivity. Qed.

Lemma chars_nil : chars EmptyString = [].
Proof. reflexivity. Qed.

Ltac spell :=
  unfold snoc;
  repeat first [rewrite chars_app | rewrite chars_cons | rewrite chars_nil
               | rewrite <- app_assoc | progress cbn [app]].

Lemma glue_cons {A : Type} (f : A -> string) (x : A) (l : list A) :
  glue f (x :: l) = f x ++ glue f l.
Proof. reflexivity. Qed.

Lemma glue_app {A : Type} (f : A -> string) (a b : list A) :
  glue f (a ++ b) = glue f a ++ glue f b.
Proof.
  induction a as [|x a IH]; [reflexivity|].
  cbn [app]. rewrite !glue_cons, IH, append_assoc. reflexivity.
Qed.

(** [escapedstate] only matters after a backslash, which sets it. *)
Lemma read_tokens_escapedstate (l : list ascii) :
  forall st quoted esc esc' tok,
    st <> shlex.st_escape ->
    shlex.read_tokens l st quoted esc tok = shlex.read_tokens l st quoted esc' tok.
Proof.
  induction l as [|c l IH]; intros st quoted esc esc' tok N.
  - destruct st; reflexivity.
  - destruct st; cbn [shlex.read_tokens]; try reflexivity.
    + destruct (shlex.whitespace c).
      { destruct (shlex.emits tok quoted); [reflexivity|]. apply IH. discriminate. }
      destruct (shlex.escape c); [reflexivity|].
      destruct (shlex.quotes c); apply IH; discriminate.
    + destruct (shlex.whitespace c).
      { destruct (shlex.emits tok quoted); [reflexivity|]. apply IH. discriminate. }
      destruct (shlex.quotes c); [apply IH; discriminate|].
      destruct (shlex.escape c); [reflexivity|]. apply IH. discriminate.
    + destruct (Ascii.eqb c q); [apply IH; discriminate|].
      destruct (shlex.escape c && shlex.escapedquotes q); [reflexivity|].
      apply IH. discriminate.
    + contradiction N. reflexivity.
Qed.

(** Inside quotes the token is a quoted one, whatever came before. *)
Lemma read_tokens_quote_flag (l : list ascii) (q : ascii) (quoted : bool)
      (esc : shlex.state) (tok : string) :
  shlex.read_tokens l (shlex.st_quote q) quoted esc tok
  = shlex.read_tokens l (shlex.st_quote q) true esc tok.
Proof. destruct l; reflexivity. Qed.

(** With no token begun, a character is read after a blank as it is
    inside a word. *)
Lemma read_tokens_from_space (l : list ascii) (esc : shlex.state) :
  shlex.read_tokens l shlex.st_space false esc EmptyString
  = shlex.read_tokens l shlex.st_word false esc EmptyString.
Proof.
  destruct l as [|c l]; [reflexivity|]. cbn [shlex.read_tokens].
  destruct (shlex.whitespace c); [reflexivity|].
  destruct (shlex.escape c) eqn:E, (shlex.quotes c) eqn:Q; try reflexivity.
  unfold shlex.escape in E. apply Ascii.eqb_eq in E. subst. discriminate.
Qed.

Lemma bare_inv (c : ascii) :
  piece_ok (bare c) = true ->
  shlex.whitespace c = false /\ shlex.quotes c = false /\ shlex.escape c = false.
Proof.
  cbn [piece_ok]. unfold shlex.quotes, shlex.escape.
  change (shlex.whitespace c) with (blank_char c).
  destruct (blank_char c), (Ascii.eqb c SQUOTE), (Ascii.eqb c DQUOTE),
    (Ascii.eqb c BACKSLASH); cbn; intros H; try discriminate; auto.
Qed.

(** Between single quotes every character adds to the token. *)
Lemma read_tokens_in_squotes (body : string) (rest : list ascii) :
  without SQUOTE body = true ->
  forall quoted esc tok,
    shlex.read_tokens (chars body ++ rest) (shlex.st_quote SQUOTE) quoted esc tok
    = shlex.read_tokens rest (shlex.st_quote SQUOTE) true esc (tok ++ body).
Proof.
  unfold without. induction body as [|c body IH]; intros H quoted esc tok.
  - rewrite append_nil_r. apply read_tokens_quote_flag.
  - cbn [chars list_ascii_of_string forallb] in H.
    apply andb_true_iff in H as [Hc Hb]. apply negb_true_iff in Hc.
    spell. cbn [shlex.read_tokens]. rewrite Hc.
    unfold shlex.escapedquotes. cbn [Ascii.eqb]. rewrite andb_false_r.
    rewrite (IH Hb). rewrite snoc_append. reflexivity.
Qed.

(** Between double quotes a character adds to the token, and so does a
    backslash and the character after it, without the backslash when that
    character is a double quote or a backslash. *)
Lemma read_tokens_in_dquotes (items : list in_dquotes) (rest : list ascii) :
  forallb in_dquotes_ok items = true ->
  forall quoted esc tok,
    shlex.read_tokens (chars (glue in_dquotes_text items) ++ rest)
                      (shlex.st_quote DQUOTE) quoted esc tok
    = shlex.read_tokens rest (shlex.st_quote DQUOTE) true esc
                        (tok ++ glue in_dquotes_value items).
Proof.
  induction items as [|i items IH]; intros H quoted esc tok.
  - cbn [glue fold_right]. rewrite append_nil_r. apply read_tokens_quote_flag.
  - cbn [forallb] in H. apply andb_true_iff in H as [Hi Hs].
    rewrite !glue_cons. destruct i as [c|c]; cbn [in_dquotes_text in_dquotes_value].
    + cbn [in_dquotes_ok] in Hi. apply andb_true_iff in Hi as [Hq Hb].
      apply negb_true_iff in Hq, Hb.
      spell. cbn [shlex.read_tokens]. rewrite Hq. unfold shlex.escape. rewrite Hb.
      cbn [andb]. rewrite (IH Hs). rewrite snoc_append. reflexivity.
    + spell. cbn [shlex.read_tokens].
      change (Ascii.eqb BACKSLASH DQUOTE) with false.
      change (shlex.escape BACKSLASH && shlex.escapedquotes DQUOTE) with true.
      cbn iota. cbn [shlex.is_quote_state shlex.differs andb].
      rewrite (IH Hs).
      rewrite (read_tokens_escapedstate rest (shlex.st_quote DQUOTE) true
                 (shlex.st_quote DQUOTE) esc); [|discriminate].
      destruct (Ascii.eqb c BACKSLASH) eqn:B; [|destruct (Ascii.eqb c DQUOTE) eqn:D];
        cbn [negb andb orb]; rewrite ?orb_true_r;
          rewrite ?snoc_append; unfold snoc; rewrite ?append_assoc; reflexivity.
Qed.

(** A piece adds its value to the token. *)
Lemma read_tokens_piece (p : piece) (rest : list ascii) :
  piece_ok p = true ->
  forall quoted esc tok,
    shlex.read_tokens (chars (piece_text p) ++ rest) shlex.st_word quoted esc tok
    = shlex.read_tokens rest shlex.st_word (quoted || quoting p) esc
                        (tok ++ piece_value p).
Proof.
  intros H quoted esc tok. destruct p as [c|c|body|items];
    cbn [piece_text piece_value quoting].
  - destruct (bare_inv c H) as (W & Q & E).
    spell. cbn [shlex.read_tokens]. rewrite W, Q, E, orb_false_r. reflexivity.
  - spell. cbn [shlex.read_tokens].
    change (shlex.whitespace BACKSLASH) with false.
    change (shlex.quotes BACKSLASH) with false.
    change (shlex.escape BACKSLASH) with true.
    cbn iota. cbn [shlex.is_quote_state andb]. rewrite orb_false_r.
    apply read_tokens_escapedstate. discriminate.
  - cbn [piece_ok] in H. spell. cbn [shlex.read_tokens].
    change (shlex.whitespace SQUOTE) with false.
    change (shlex.quotes SQUOTE) with true. cbn iota.
    rewrite (read_tokens_in_squotes body _ H). cbn [shlex.read_tokens].
    rewrite Ascii.eqb_refl, orb_true_r. reflexivity.
  - cbn [piece_ok] in H. spell. cbn [shlex.read_tokens].
    change (shlex.whitespace DQUOTE) with false.
    change (shlex.quotes DQUOTE) with true. cbn iota.
    rewrite (read_tokens_in_dquotes items _ H). cbn [shlex.read_tokens].
    rewrite Ascii.eqb_refl, orb_true_r. reflexivity.
Qed.

(** The pieces of a word add up to its value. *)
Lemma read_tokens_pieces (w : list piece) (rest : list ascii) :
  forallb piece_ok w = true ->
  forall quoted esc tok,
    shlex.read_tokens (chars (word_text w) ++ rest) shlex.st_word quoted esc tok
    = shlex.read_tokens rest shlex.st_word (quoted || existsb quoting w) esc
                        (tok ++ word_value w).
Proof.
  unfold word_text, word_value.
  induction w as [|p w IH]; intros H quoted esc tok.
  - cbn [glue fold_right existsb]. rewrite append_nil_r, orb_false_r. reflexivity.
  - cbn [forallb] in H. apply andb_true_iff in H as [Hp Hw].
    rewrite !glue_cons. spell. rewrite (read_tokens_piece p _ Hp), (IH Hw).
    cbn [existsb]. rewrite orb_assoc, append_assoc. reflexivity.
Qed.

Lemma word_ok_pieces (w : list piece) : word_ok w = true -> forallb piece_ok w = true.
Proof. destruct w; [discriminate|]. intros H. exact H. Qed.

(** A word is handed out, be its value empty. *)
Lemma word_emits (w : list piece) :
  word_ok w = true -> shlex.emits (word_value w) (existsb quoting w) = true.
Proof.
  destruct w as [|p w]; [discriminate|]. intros _. unfold shlex.emits, word_value.
  rewrite glue_cons. cbn [existsb].
  destruct p; cbn [piece_value quoting append truthy orb]; try reflexivity;
    apply orb_true_r.
Qed.

(** A word is read from a blank to the end of the gap that follows it. *)
Lemma read_tokens_word_gap (w : list piece) (g : string) (rest : list ascii) :
  word_ok w = true ->
  gap_ok g = true ->
  shlex.read_tokens (chars (word_text w ++ g) ++ rest)
                    shlex.st_space false shlex.st_space EmptyString
  = (toks <- shlex.read_tokens rest shlex.st_space false shlex.st_space EmptyString ;;
     Returned (word_value w :: toks)).
Proof.
  intros Hw Hg. spell. rewrite read_tokens_from_space.
  rewrite (read_tokens_pieces w _ (word_ok_pieces w Hw)). cbn [orb append].
  unfold gap_ok in Hg. apply andb_true_iff in Hg as [Ht Hb].
  destruct g as [|c g]; [discriminate|].
  unfold blanks in Hb. cbn [chars list_ascii_of_string forallb] in Hb.
  apply andb_true_iff in Hb as [Hc Hb].
  spell. cbn [shlex.read_tokens].
  change (shlex.whitespace c) with (blank_char c). rewrite Hc, (word_emits w Hw).
  rewrite (read_tokens_skip_blank (chars g) rest Hb). reflexivity.
Qed.

(** Words that are followed by gaps come out one by one. *)
Lemma read_tokens_followed (complete : list (list piece * string))
      (rest : list ascii) :
  followed_ok complete = true ->
  shlex.read_tokens (chars (followed complete) ++ rest)
                    shlex.st_space false shlex.st_space EmptyString
  = (toks <- shlex.read_tokens rest shlex.st_space false shlex.st_space EmptyString ;;
     Returned (values complete ++ toks)%list).
Proof.
  unfold followed, followed_ok, values.
  induction complete as [|[w g] complete IH]; intros H.
  - cbn [glue fold_right chars list_ascii_of_string app map].
    destruct (shlex.read_tokens rest shlex.st_space false shlex.st_space EmptyString);
      reflexivity.
  - cbn [forallb fst snd] in H. apply andb_true_iff in H as [Hwg Hc].
    apply andb_true_iff in Hwg as [Hw Hg].
    rewrite glue_cons. cbn [fst snd map]. rewrite chars_app, <- app_assoc.
    rewrite (read_tokens_word_gap w g _ Hw Hg), (IH Hc).
    destruct (shlex.read_tokens rest shlex.st_space false shlex.st_space EmptyString);
      reflexivity.
Qed.

(** The last word ends with the line, or at the blanks that end it. *)
Lemma read_tokens_last (w : list piece) (tail : string) :
  word_ok w = true ->
  blanks tail = true ->
  shlex.read_tokens (chars (word_text w ++ tail))
                    shlex.st_space false shlex.st_space EmptyString
  = Returned [word_value w].
Proof.
  intros Hw Hb. spell. rewrite read_tokens_from_space.
  rewrite (read_tokens_pieces w _ (word_ok_pieces w Hw)). cbn [orb append].
  destruct tail as [|c tail].
  - cbn [chars list_ascii_of_string shlex.read_tokens]. unfold shlex.last_token.
    rewrite (word_emits w Hw). reflexivity.
  - unfold blanks in Hb. cbn [chars list_ascii_of_string forallb] in Hb.
    apply andb_true_iff in Hb as [Hc Hb].
    spell. cbn [shlex.read_tokens].
    change (shlex.whitespace c) with (blank_char c). rewrite Hc, (word_emits w Hw).
    rewrite <- (app_nil_r (chars tail)).
    rewrite (read_tokens_skip_blank (chars tail) [] Hb). reflexivity.
Qed.

(** A line that stops in the middle of a word raises. *)
Lemma read_tokens_stop (partial : list piece) (e : stop) :
  forallb piece_ok partial = true ->
  stop_ok e = true ->
  shlex.read_tokens (chars (word_text partial ++ stop_text e))
                    shlex.st_space false shlex.st_space EmptyString
  = Raised (ValueError (stop_error e)).
Proof.
  intros Hp He. rewrite chars_app, read_tokens_from_space.
  rewrite (read_tokens_pieces partial _ Hp). cbn [orb append].
  destruct e as [|body|items|items]; cbn [stop_text stop_error stop_ok] in *.
  - reflexivity.
  - spell. cbn [shlex.read_tokens].
    change (shlex.whitespace SQUOTE) with false.
    change (shlex.quotes SQUOTE) with true. cbn iota.
    rewrite <- (app_nil_r (chars body)).
    rewrite (read_tokens_in_squotes body [] He). reflexivity.
  - spell. cbn [shlex.read_tokens].
    change (shlex.whitespace DQUOTE) with false.
    change (shlex.quotes DQUOTE) with true. cbn iota.
    rewrite <- (app_nil_r (chars _)).
    rewrite (read_tokens_in_dquotes items [] He). reflexivity.
  - spell. cbn [shlex.read_tokens].
    change (shlex.whitespace DQUOTE) with false.
    change (shlex.quotes DQUOTE) with true. cbn iota.
    rewrite (read_tokens_in_dquotes items _ He). reflexivity.
Qed.

(** [shlex.split] on a line of each shape. *)
Lemma split_shape (sh : shape) :
  shape_ok sh = true -> shlex.split (shape_text sh) = shape_split sh.
Proof.
  unfold shlex.split. destruct sh as [lead|lead complete last tail|lead complete partial e];
    cbn [shape_ok shape_text shape_split]; intros H.
  - apply split_blank. exact H.
  - apply andb_true_iff in H as [H Ht]. apply andb_true_iff in H as [H Hw].
    apply andb_true_iff in H as [Hl Hc].
    fold (chars (lead ++ followed complete ++ word_text last ++ tail)).
    rewrite chars_app, (read_tokens_skip_blank (chars lead) _ Hl).
    rewrite chars_app, (read_tokens_followed complete _ Hc).
    rewrite (read_tokens_last last tail Hw Ht). reflexivity.
  - apply andb_true_iff in H as [H He]. apply andb_true_iff in H as [H Hp].
    apply andb_true_iff in H as [Hl Hc].
    fold (chars (lead ++ followed complete ++ word_text partial ++ stop_text e)).
    rewrite chars_app, (read_tokens_skip_blank (chars lead) _ Hl).
    rewrite chars_app, (read_tokens_followed complete _ Hc).
    rewrite (read_tokens_stop partial e Hp He). reflexivity.
Qed.

(** ** Every command line has a shape *)

Ltac assoc :=
  unfold snoc;
  repeat first [rewrite append_assoc | rewrite append_nil_r | progress cbn [append]].

Lemma forallb_snoc {A : Type} (f : A -> bool) (l : list A) (x : A) :
  forallb f l = true -> f x = true -> forallb f (l ++ [x]) = true.
Proof. intros L X. rewrite forallb_app, L. cbn. rewrite X. reflexivity. Qed.

Lemma blanks_snoc (s : string) (c : ascii) :
  blanks s = true -> blank_char c = true -> blanks (snoc s c) = true.
Proof. unfold blanks. rewrite snoc_chars. apply forallb_snoc. Qed.

Lemma without_snoc (q : ascii) (s : string) (c : ascii) :
  without q s = true -> Ascii.eqb c q = false -> without q (snoc s c) = true.
Proof.
  unfold without. rewrite snoc_chars. intros S C. apply forallb_snoc; [exact S|].
  rewrite C. reflexivity.
Qed.

Lemma word_ok_snoc (partial : list piece) (p : piece) :
  forallb piece_ok partial = true ->
  piece_ok p = true ->
  word_ok (partial ++ [p]) = true.
Proof.
  intros P X. pose proof (forallb_snoc piece_ok partial p P X) as F.
  destruct partial; exact F.
Qed.

Lemma begin_piece_text (lead : string) (complete : list (list piece * string))
      (partial : list piece) (c : ascii) :
  shape_text (begin_piece lead complete partial c)
  = snoc (lead ++ followed complete ++ word_text partial) c.
Proof.
  unfold begin_piece.
  destruct (Ascii.eqb c BACKSLASH) eqn:B;
    [|destruct (Ascii.eqb c SQUOTE) eqn:S; [|destruct (Ascii.eqb c DQUOTE) eqn:D]];
    try (apply Ascii.eqb_eq in B; subst c); try (apply Ascii.eqb_eq in S; subst c);
    try (apply Ascii.eqb_eq in D; subst c);
    cbn [shape_text stop_text glue fold_right]; unfold word_text;
    rewrite ?glue_app; cbn [glue fold_right piece_text]; assoc; reflexivity.
Qed.

Lemma begin_piece_ok (lead : string) (complete : list (list piece * string))
      (partial : list piece) (c : ascii) :
  blanks lead = true ->
  followed_ok complete = true ->
  forallb piece_ok partial = true ->
  blank_char c = false ->
  shape_ok (begin_piece lead complete partial c) = true.
Proof.
  intros L C P N. unfold begin_piece.
  destruct (Ascii.eqb c BACKSLASH) eqn:B;
    [|destruct (Ascii.eqb c SQUOTE) eqn:S; [|destruct (Ascii.eqb c DQUOTE) eqn:D]];
    cbn [shape_ok stop_ok]; rewrite L, C; rewrite ?P; try reflexivity.
  cbn [andb]. rewrite word_ok_snoc; [reflexivity|exact P|].
  cbn [piece_ok]. rewrite N, B, S, D. reflexivity.
Qed.

Lemma followed_snoc (complete : list (list piece * string)) (w : list piece)
      (g : string) :
  followed (complete ++ [(w, g)]) = followed complete ++ word_text w ++ g.
Proof.
  unfold followed. rewrite glue_app. cbn [glue fold_right fst snd]. assoc. reflexivity.
Qed.

(** One more character, one more character in the text of the shape. *)
Lemma shape_step_text (sh : shape) (c : ascii) :
  shape_text (shape_step sh c) = snoc (shape_text sh) c.
Proof.
  destruct sh as [lead|lead complete last tail|lead complete partial e];
    cbn [shape_step].
  - destruct (blank_char c); [reflexivity|].
    rewrite begin_piece_text. cbn. assoc. reflexivity.
  - destruct (blank_char c); [cbn [shape_text]; assoc; reflexivity|].
    destruct tail as [|t tail]; cbn [truthy]; rewrite begin_piece_text.
    + cbn [shape_text]. assoc. reflexivity.
    + rewrite followed_snoc. cbn [shape_text word_text glue fold_right]. assoc.
      reflexivity.
  - destruct e as [|body|items|items].
    + cbn [shape_text stop_text]. unfold word_text. rewrite glue_app.
      cbn [glue fold_right piece_text]. assoc. reflexivity.
    + destruct (Ascii.eqb c SQUOTE) eqn:S.
      * apply Ascii.eqb_eq in S. subst c.
        cbn [shape_text stop_text]. unfold word_text. rewrite glue_app.
        cbn [glue fold_right piece_text]. assoc. reflexivity.
      * cbn [shape_text stop_text]. assoc. reflexivity.
    + destruct (Ascii.eqb c DQUOTE) eqn:D; [|destruct (Ascii.eqb c BACKSLASH) eqn:B].
      * apply Ascii.eqb_eq in D. subst c.
        cbn [shape_text stop_text]. unfold word_text. rewrite glue_app.
        cbn [glue fold_right piece_text]. assoc. reflexivity.
      * apply Ascii.eqb_eq in B. subst c.
        cbn [shape_text stop_text]. assoc. reflexivity.
      * cbn [shape_text stop_text]. rewrite glue_app.
        cbn [glue fold_right in_dquotes_text]. assoc. reflexivity.
    + cbn [shape_text stop_text]. rewrite glue_app.
      cbn [glue fold_right in_dquotes_text]. assoc. reflexivity.
Qed.

(** One more character leaves a shape well formed. *)
Lemma shape_step_ok (sh : shape) (c : ascii) :
  shape_ok sh = true -> shape_ok (shape_step sh c) = true.
Proof.
  destruct sh as [lead|lead complete last tail|lead complete partial e];
    cbn [shape_step shape_ok]; intros H.
  - destruct (blank_char c) eqn:N; [apply blanks_snoc; assumption|].
    apply begin_piece_ok; try assumption; reflexivity.
  - apply andb_true_iff in H as [H Ht]. apply andb_true_iff in H as [H Hw].
    apply andb_true_iff in H as [Hl Hc].
    destruct (blank_char c) eqn:N.
    { cbn [shape_ok]. rewrite Hl, Hc, Hw. apply blanks_snoc; assumption. }
    destruct (truthy tail) eqn:T.
    + apply begin_piece_ok; try assumption; [|reflexivity].
      unfold followed_ok. apply forallb_snoc; [exact Hc|].
      cbn [fst snd]. unfold gap_ok. rewrite Hw, T, Ht. reflexivity.
    + apply begin_piece_ok; try assumption. apply word_ok_pieces. exact Hw.
  - apply andb_true_iff in H as [H He]. apply andb_true_iff in H as [H Hp].
    apply andb_true_iff in H as [Hl Hc].
    destruct e as [|body|items|items]; cbn [stop_ok] in He.
    + cbn [shape_ok]. rewrite Hl, Hc. rewrite word_ok_snoc; [reflexivity|exact Hp|].
      reflexivity.
    + destruct (Ascii.eqb c SQUOTE) eqn:S; cbn [shape_ok stop_ok]; rewrite Hl, Hc.
      * rewrite word_ok_snoc; [reflexivity|exact Hp|exact He].
      * rewrite Hp. apply without_snoc; assumption.
    + destruct (Ascii.eqb c DQUOTE) eqn:D; [|destruct (Ascii.eqb c BACKSLASH) eqn:B];
        cbn [shape_ok stop_ok]; rewrite Hl, Hc.
      * rewrite word_ok_snoc; [reflexivity|exact Hp|exact He].
      * rewrite Hp, He. reflexivity.
      * rewrite Hp. apply forallb_snoc; [exact He|].
        cbn [in_dquotes_ok]. rewrite D, B. reflexivity.
    + cbn [shape_ok stop_ok]. rewrite Hl, Hc, Hp.
      apply forallb_snoc; [exact He|reflexivity].
Qed.

Lemma fold_shape_step (l : list ascii) :
  forall sh,
    shape_ok sh = true ->
    shape_ok (fold_left shape_step l sh) = true
    /\ shape_text (fold_left shape_step l sh) = shape_text sh ++ string_of_list_ascii l.
Proof.
  induction l as [|c l IH]; intros sh H; cbn [fold_left string_of_list_ascii].
  - rewrite append_nil_r. split; [exact H|reflexivity].
  - destruct (IH (shape_step sh c) (shape_step_ok sh c H)) as [O T].
    split; [exact O|]. rewrite T, shape_step_text. apply snoc_append.
Qed.

(** Every command line is of one of the three shapes. *)
Lemma shape_of_line (s : string) :
  shape_ok (shape_of s) = true /\ shape_text (shape_of s) = s.
Proof.
  unfold shape_of.
  destruct (fold_shape_step (chars s) (blank_line EmptyString) eq_refl) as [O T].
  split; [exact O|]. rewrite T. cbn [shape_text append]. unfold chars.
  apply string_of_list_ascii_of_string.
Qed.

(** C7, as stated, fails: inside double quotes POSIX has a backslash
    escape a dollar sign, [shlex] keeps the backslash. *)
Lemma split_keeps_backslash_dollar :
  shlex.split (quoted_with DQUOTE "\$HOME") = Returned ["\$HOME"]
  /\ posix_dquoted (chars "\$HOME") = "$HOME"
  /\ shlex.split (quoted_with DQUOTE "\$HOME")
     <> Returned [posix_dquoted (chars "\$HOME")].
Proof.
  split; [reflexivity|]. split; [reflexivity|]. discriminate.
Qed.

(** C7, amended.  [shlex.split] reads every command line as one of three
    shapes, and no shell is involved.  Blanks (space, tab, carriage
    return, line feed) alone give no argument.  Words separated by blanks
    give one argument each: a word is made of characters that stand for
    themselves, of backslashes with the character after them, which
    stands for itself whatever it is (a blank or a newline too), and of
    regions in single or double quotes, blanks included, all joined in
    one argument; inside single quotes every character stands for itself;
    inside double quotes a backslash escapes a double quote or a
    backslash only, and is kept before any other character.  A line that
    stops inside quotes or after a backslash raises [ValueError].
    [execute_command] answers an error of the parser with exit code 1 and
    no exception. *)
Theorem split_shell_words :
  (forall sh, shape_ok sh = true -> shlex.split (shape_text sh) = shape_split sh)
  /\ (forall s, shape_ok (shape_of s) = true /\ shape_text (shape_of s) = s)
  /\ (forall w request e,
         shlex.split (command request) = Raised e ->
         execute_command w request =
         Returned {| stdout := EmptyString;
                     stderr := "Failed to execute command: " ++ str_exn e;
                     exit_code := 1 |})
  /\ (forall w request lead complete partial e,
         shape_ok (unfinished lead complete partial e) = true ->
         command request = shape_text (unfinished lead complete partial e) ->
         execute_command w request =
         Returned {| stdout := EmptyString;
                     stderr := "Failed to execute command: " ++ stop_error e;
                     exit_code := 1 |}).
Proof.
  refine (conj split_shape (conj shape_of_line (conj _ _))).
  - intros w request e. apply execute_command_parse_error.
  - intros w request lead complete partial e O C.
    apply (execute_command_parse_error w request (ValueError (stop_error e))).
    rewrite C. apply (split_shape _ O).
Qed.

Lemma split_shell_words_witness :
  shape_text quoted_line
  = "echo --msg=" ++ String DQUOTE ("hello world" ++ String DQUOTE " a\ b 'it''s'")
  /\ shlex.split (shape_text quoted_line)
     = Returned ["echo"; "--msg=hello world"; "a b"; "its"]
  /\ shape_text cut_line = "echo --msg=" ++ String DQUOTE "hello w"
  /\ shlex.split (shape_text cut_line) = Raised (ValueError "No closing quotation")
  /\ shape_of (shape_text quoted_line) = quoted_line
  /\ execute_command hello_world open_quote_request =
     Returned {| stdout := EmptyString;
                 stderr := "Failed to execute command: No closing quotation";
                 exit_code := 1 |}.
Proof.
  destruct split_shell_words as (R & _ & X & _).
  refine (conj eq_refl (conj _ (conj eq_refl (conj _ (conj _ _))))).
  - exact (R quoted_line eq_refl).
  - exact (R cut_line eq_refl).
  - vm_compute. reflexivity.
  - apply (X hello_world open_quote_request (ValueError "No closing quotation")).
    reflexivity.
Defined.

(** C9. For an empty or blank command [execute_command] does not raise
    and does not succeed: it returns no stdout, a message for stderr and
    exit code 1; [event_generator] yields one error event, then one done
    event with exit code 1. *)
Theorem blank_command_fails (w : world) (request : ExecuteRequest) :
  blank (command request) = true ->
  execute_command w request =
  Returned {| stdout := EmptyString;
              stderr := "Failed to execute command: list index out of range";
              exit_code := 1 |}
  /\ event_generator w request =
     Some [Yield (error_event
       "Failed to execute command: create_subprocess_exec() missing 1 required positional argument: 'program'");
           Yield (done_event 1)].
Proof.
  intros H. pose proof (split_blank _ H) as S. split.
  - unfold execute_command. rewrite (execute_try_run w request [] S). reflexivity.
  - unfold event_generator. rewrite S. reflexivity.
Qed.

Lemma blank_command_fails_witness :
  execute_command sleep_world blank_request =
  Returned {| stdout := EmptyString;
              stderr := "Failed to execute command: list index out of range";
              exit_code := 1 |}
  /\ events_of (event_generator sleep_world blank_request) =
     [error_event
        "Failed to execute command: create_subprocess_exec() missing 1 required positional argument: 'program'";
      done_event 1].
Proof.
  destruct (blank_command_fails sleep_world blank_request eq_refl) as [E G].
  split; [exact E|]. rewrite G. reflexivity.
Defined.

Example empty_command_fails (w : world) (t : option Z) :
  execute_command w {| command := EmptyString; timeout := t |} =
  Returned {| stdout := EmptyString;
              stderr := "Failed to execute command: list index out of range";
              exit_code := 1 |}.
Proof. reflexivity. Qed.

(** ** [event_generator] *)

Lemma readuntil_time (deadline eof_at : Z) (incoming : list (Z * string)) :
  forall now buf r now' reader,
    asyncio.readuntil deadline eof_at now buf incoming = (r, now', reader) ->
    now <= deadline ->
    now <= now' <= deadline.
Proof.
  induction incoming as [|[t d] later IH]; intros now buf r now' reader;
    cbn [asyncio.readuntil].
  - destruct (asyncio.take_line buf) as [[l rest]|].
    + destruct (asyncio.limit <? Z.of_nat (String.length l) - 1);
        intros H L; inversion H; subst; lia.
    + destruct (asyncio.limit <? Z.of_nat (String.length buf));
        [intros H L; inversion H; subst; lia|].
      destruct (eof_at <=? deadline) eqn:E; intros H L; inversion H; subst.
      * apply Z.leb_le in E. lia.
      * lia.
  - destruct (asyncio.take_line buf) as [[l rest]|].
    + destruct (asyncio.limit <? Z.of_nat (String.length l) - 1);
        intros H L; inversion H; subst; lia.
    + destruct (asyncio.limit <? Z.of_nat (String.length buf));
        [intros H L; inversion H; subst; lia|].
      destruct (t <=? deadline) eqn:E.
      * intros H L. apply Z.leb_le in E.
        specialize (IH _ _ _ _ _ H). lia.
      * intros H L. inversion H; subst. lia.
Qed.

Lemma feed_remaining (now : Z) (incoming : list (Z * string)) :
  forall buf,
    asyncio.buffer (asyncio.feed now buf incoming)
    ++ written (asyncio.incoming (asyncio.feed now buf incoming))
    = buf ++ written incoming.
Proof.
  induction incoming as [|[t d] later IH]; intros buf; cbn [asyncio.feed].
  - reflexivity.
  - destruct (t <=? now); [|reflexivity].
    rewrite IH. cbn [written fold_right snd]. fold (written later).
    induction buf as [|c buf IHb]; cbn; [reflexivity|]. f_equal. exact IHb.
Qed.

Lemma readline_time (deadline eof_at : Z) (incoming : list (Z * string)) :
  forall now buf r now' reader,
    asyncio.readline deadline eof_at now buf incoming = (r, now', reader) ->
    now <= deadline ->
    now <= now' <= deadline.
Proof.
  intros now buf r now' reader. unfold asyncio.readline. apply readuntil_time.
Qed.

Lemma forward_yields (w : world) (channel : string) (r : asyncio.awaited (Outcome string))
      (tr : list action) :
  channel = "stdout" \/ channel = "stderr" ->
  forward w channel r = Returned tr ->
  Forall yields_output tr.
Proof.
  intros C. unfold forward. destruct r as [[l|x]|]; [|discriminate|].
  - destruct (truthy l).
    + unfold decode. destruct (decodable l); cbn [bind]; [|discriminate].
      intros H. inversion H; subst. constructor; [|constructor].
      eexists. split; [reflexivity|]. exact C.
    + intros H. inversion H; subst. constructor.
  - intros H. inversion H; subst. constructor.
Qed.

(** What a turn that goes round again has done: the child was still
    running and the timeout not reached; the turn only yielded output;
    and either the child has exited by the end of the turn, which ended
    with a completed wait, or ten milliseconds at least have passed. *)
Lemma loop_turn_again (w : world) (request : ExecuteStreamRequest) (now : Z)
      (p : asyncio.Process) (tr : list action) (now' : Z) (p' : asyncio.Process) :
  loop_turn w request now p = Again tr now' p' ->
  asyncio.returncode p now = None
  /\ timeout_reached (timeout request) now = false
  /\ asyncio.proc p' = asyncio.proc p
  /\ ((exit_at (asyncio.proc p) <= now'
       /\ exists tr0, tr = (tr0 ++ [Wait])%list /\ Forall yields_output tr0)
      \/ (now + 10 <= now' /\ now' < exit_at (asyncio.proc p)
          /\ Forall yields_output tr)).
Proof.
  unfold loop_turn.
  destruct (asyncio.returncode p now) eqn:RC; [discriminate|].
  destruct (timeout_reached (timeout request) now) eqn:TR; [discriminate|].
  destruct (asyncio.readline (now + 100) (exit_at (asyncio.proc p)) now
              (asyncio.buffer (asyncio.stdout p))
              (asyncio.incoming (asyncio.stdout p))) as [[r1 now1] out] eqn:R1.
  destruct (forward w "stdout" r1) as [tr1|e1] eqn:F1; [|discriminate].
  cbn [asyncio.stderr asyncio.proc asyncio.stdout].
  destruct (asyncio.readline (now1 + 100) (exit_at (asyncio.proc p)) now1
              (asyncio.buffer (asyncio.stderr p))
              (asyncio.incoming (asyncio.stderr p))) as [[r2 now2] err] eqn:R2.
  destruct (forward w "stderr" r2) as [tr2|e2] eqn:F2; [|discriminate].
  pose proof (readline_time _ _ _ _ _ _ _ _ R1 ltac:(lia)) as T1.
  pose proof (readline_time _ _ _ _ _ _ _ _ R2 ltac:(lia)) as T2.
  pose proof (forward_yields _ _ _ _ (or_introl eq_refl) F1) as Y1.
  pose proof (forward_yields _ _ _ _ (or_intror eq_refl) F2) as Y2.
  unfold asyncio.wait.
  destruct (exit_at (asyncio.proc p) <=? now2 + 10) eqn:W;
    intros H; inversion H; subst; clear H;
    (split; [reflexivity|]); (split; [reflexivity|]); (split; [reflexivity|]).
  - left. split; [lia|]. exists (tr1 ++ tr2)%list. split.
    + rewrite app_assoc. reflexivity.
    + apply Forall_app. split; assumption.
  - right. apply Z.leb_gt in W. split; [lia|]. split; [lia|].
    apply Forall_app. split; assumption.
Qed.

(** The loop comes to an end within the turns it is given. *)
Lemma stream_loop_total (w : world) (request : ExecuteStreamRequest) (fuel : nat) :
  forall now p,
    (Z.to_nat (exit_at (asyncio.proc p) - now) < fuel)%nat ->
    exists tr, stream_loop fuel w request now p = Some tr.
Proof.
  induction fuel as [|fuel IH]; intros now p L; [lia|].
  cbn [stream_loop].
  destruct (loop_turn w request now p) as [tr|tr now' p'] eqn:T.
  - eexists; reflexivity.
  - destruct (loop_turn_again _ _ _ _ _ _ _ T) as (RC & _ & P & D).
    unfold asyncio.returncode in RC.
    destruct (exit_at (asyncio.proc p) <=? now) eqn:E; [discriminate|].
    apply Z.leb_gt in E.
    destruct (IH now' p') as [rest R].
    + rewrite P. destruct D as [[D _]|[D _]]; lia.
    + rewrite R. eexists; reflexivity.
Qed.


Lemma event_generator_spawned (w : world) (request : ExecuteStreamRequest)
      (p : asyncio.Process) :
  spawn w request = Returned p ->
  event_generator w request
  = stream_loop (turns (asyncio.proc p)) w request (ready_at (asyncio.proc p)) p.
Proof.
  unfold spawn, event_generator. intros ->. reflexivity.
Qed.

(** The generator always comes to an end. *)
Lemma event_generator_total (w : world) (request : ExecuteStreamRequest) :
  exists tr, event_generator w request = Some tr.
Proof.
  destruct (spawn w request) as [p|e] eqn:S.
  - rewrite (event_generator_spawned w request p S).
    apply stream_loop_total. unfold turns. lia.
  - unfold spawn in S. unfold event_generator. rewrite S. eexists; reflexivity.
Qed.

Lemma events_app (a b : list action) :
  events (a ++ b) = (events a ++ events b)%list.
Proof.
  induction a as [|x a IH]; cbn [app events]; [reflexivity|].
  destruct x; cbn [app]; rewrite IH; reflexivity.
Qed.

Lemma events_outputs (tr : list action) :
  Forall yields_output tr ->
  Forall is_output (events tr) /\ events tr = map (fun a => match a with
                                                          | Yield e => e
                                                          | _ => stdout_event EmptyString
                                                          end) tr.
Proof.
  induction 1 as [|a tr (e & -> & O) _ [IH1 IH2]]; cbn [events map].
  - split; [constructor|reflexivity].
  - split; [constructor; assumption|]. f_equal. exact IH2.
Qed.

Lemma on_exception_events (process : option asyncio.Process) (now : Z) (e : exn) :
  events (on_exception process now e)
  = [error_event ("Failed to execute command: " ++ str_exn e); done_event 1].
Proof.
  unfold on_exception. destruct process as [p|]; [|reflexivity].
  destruct (asyncio.returncode p now); reflexivity.
Qed.


(** A turn that ends the generator ends the sequence of events. *)
Lemma loop_turn_over (w : world) (request : ExecuteStreamRequest) (now : Z)
      (p : asyncio.Process) (tr : list action) :
  loop_turn w request now p = Over tr ->
  exists body tail,
    events tr = (body ++ tail)%list
    /\ Forall is_output body
    /\ ending (asyncio.proc p) request tail.
Proof.
  unfold loop_turn.
  destruct (asyncio.returncode p now) as [code|] eqn:RC.
  { intros H; inversion H; subst. exists [], [done_event code].
    split; [reflexivity|]. split; [constructor|].
    unfold asyncio.returncode in RC.
    destruct (exit_at (asyncio.proc p) <=? now); inversion RC; subst.
    constructor. }
  destruct (timeout_reached (timeout request) now) eqn:TR.
  { intros H; inversion H; subst. eexists [], _.
    split; [reflexivity|]. split; [constructor|].
    apply (ends_timeout _ _ now TR). }
  destruct (asyncio.readline (now + 100) (exit_at (asyncio.proc p)) now
              (asyncio.buffer (asyncio.stdout p))
              (asyncio.incoming (asyncio.stdout p))) as [[r1 now1] out].
  destruct (forward w "stdout" r1) as [tr1|e1] eqn:F1.
  2:{ intros H; inversion H; subst. rewrite on_exception_events.
      eexists [], _. split; [reflexivity|]. split; [constructor|].
      apply ends_failed. }
  cbn [asyncio.stderr asyncio.proc asyncio.stdout].
  destruct (asyncio.readline (now1 + 100) (exit_at (asyncio.proc p)) now1
              (asyncio.buffer (asyncio.stderr p))
              (asyncio.incoming (asyncio.stderr p))) as [[r2 now2] err].
  destruct (forward w "stderr" r2) as [tr2|e2] eqn:F2.
  2:{ intros H; inversion H; subst. rewrite events_app, on_exception_events.
      eexists (events tr1), _. split; [reflexivity|]. split.
      - apply events_outputs. apply (forward_yields _ _ _ _ (or_introl eq_refl) F1).
      - apply ends_failed. }
  destruct (asyncio.wait (now2 + 10) now2 (asyncio.proc p)) as [[code|] now3];
    discriminate.
Qed.

Lemma loop_turn_again_events (w : world) (request : ExecuteStreamRequest) (now : Z)
      (p : asyncio.Process) (tr : list action) (now' : Z) (p' : asyncio.Process) :
  loop_turn w request now p = Again tr now' p' -> Forall is_output (events tr).
Proof.
  intros T. destruct (loop_turn_again _ _ _ _ _ _ _ T) as (_ & _ & _ & D).
  destruct D as [(_ & tr1 & -> & Y)|(_ & _ & Y)].
  - rewrite events_app. cbn [events]. rewrite app_nil_r.
    apply events_outputs. exact Y.
  - apply events_outputs. exact Y.
Qed.

Lemma stream_loop_ending (w : world) (request : ExecuteStreamRequest) (fuel : nat) :
  forall now p tr,
    stream_loop fuel w request now p = Some tr ->
    exists body tail,
      events tr = (body ++ tail)%list
      /\ Forall is_output body
      /\ ending (asyncio.proc p) request tail.
Proof.
  induction fuel as [|fuel IH]; intros now p tr; [discriminate|].
  cbn [stream_loop].
  destruct (loop_turn w request now p) as [tr0|tr0 now' p'] eqn:T.
  - intros H; inversion H; subst. apply (loop_turn_over _ _ _ _ _ T).
  - destruct (stream_loop fuel w request now' p') as [rest|] eqn:R; [|discriminate].
    intros H; inversion H; subst.
    destruct (IH _ _ _ R) as (body & tail & E & B & X).
    destruct (loop_turn_again _ _ _ _ _ _ _ T) as (_ & _ & P & _).
    exists (events tr0 ++ body)%list, tail.
    rewrite events_app, E, app_assoc. split; [reflexivity|]. split.
    + apply Forall_app. split; [|exact B].
      apply (loop_turn_again_events _ _ _ _ _ _ _ T).
    + rewrite <- P. exact X.
Qed.






(** On the stream test of [tester.py] the generator yields the three
    lines and the exit code. *)
Example event_generator_three_lines :
  event_generator three_lines_world three_lines_request =
  Some [Yield (stdout_event "Line 1"); Yield (stdout_event "Line 2");
        Yield (stdout_event "Line 3"); Wait; Yield (done_event 0)].
Proof. vm_compute. reflexivity. Qed.

(** C3 fails on [printf 'a\nb\nc\n']: the child writes three lines and
    exits with status 0; the generator yields the first line, sees that
    the child has exited, and ends with the done event: the two lines
    still in the reader's buffer are never yielded. *)
Theorem event_generator_drops_buffered_lines :
  written (stdout_writes burst) = line "a" ++ line "b" ++ line "c"
  /\ event_generator burst_world burst_request =
     Some [Yield (stdout_event "a"); Wait; Yield (done_event 0)].
Proof. split; [reflexivity|]. vm_compute. reflexivity. Qed.

(** The same happens to a line written a quarter of a second after the
    one before it, when the child exits right after it. *)
Example event_generator_drops_late_line :
  event_generator late_line_world late_line_request =
  Some [Yield (stdout_event "a"); Wait; Yield (done_event 0)].
Proof. vm_compute. reflexivity. Qed.







Lemma timeout_zero_never_reached (now : Z) : timeout_reached (Some 0) now = false.
Proof. reflexivity. Qed.

Lemma loop_turn_timeout_zero (w : world) (cmd : string) (now : Z)
      (p : asyncio.Process) :
  loop_turn w {| command := cmd; timeout := Some 0 |} now p
  = loop_turn w {| command := cmd; timeout := None |} now p.
Proof. unfold loop_turn. cbn [timeout]. reflexivity. Qed.

Lemma stream_loop_timeout_zero (w : world) (cmd : string) (fuel : nat) :
  forall now p,
    stream_loop fuel w {| command := cmd; timeout := Some 0 |} now p
    = stream_loop fuel w {| command := cmd; timeout := None |} now p.
Proof.
  induction fuel as [|fuel IH]; intros now p; [reflexivity|].
  cbn [stream_loop]. rewrite loop_turn_timeout_zero.
  destruct (loop_turn w {| command := cmd; timeout := None |} now p)
    as [tr|tr now' p']; [reflexivity|].
  rewrite IH. reflexivity.
Qed.

(** C8. The two endpoints disagree on a timeout of 0.  [event_generator]
    never finds it reached: the run is the run of the same command with
    no timeout, and for a spawned child it ends with the child's exit
    status or with the failure error, never with the timeout error.
    [execute_command], for a child that takes any time at all, answers
    with the timeout response and exit code 124. *)
Theorem timeout_zero_disagreement (w : world) (cmd : string) :
  event_generator w {| command := cmd; timeout := Some 0 |}
  = event_generator w {| command := cmd; timeout := None |}
  /\ (forall p,
         spawn w {| command := cmd; timeout := Some 0 |} = Returned p ->
         exists tr body,
           event_generator w {| command := cmd; timeout := Some 0 |} = Some tr
           /\ Forall is_output body
           /\ (events tr = (body ++ [done_event (exit_status (asyncio.proc p))])%list
               \/ exists e,
                    events tr
                    = (body ++ [error_event ("Failed to execute command: "
                                             ++ str_exn e);
                                done_event 1])%list))
  /\ (forall args c,
         shlex.split cmd = Returned args ->
         args <> [] ->
         exec w cwd args = spawned c ->
         0 < exit_at c ->
         execute_command w {| command := cmd; timeout := Some 0 |} =
         Returned {| stdout := EmptyString;
                     stderr := "Command timed out after 0 seconds";
                     exit_code := 124 |}).
Proof.
  refine (conj _ (conj _ _)).
  - unfold event_generator. cbn [command].
    destruct (args <- shlex.split cmd;; asyncio.create_subprocess_exec w args cwd)
      as [p|e]; [|reflexivity].
    apply stream_loop_timeout_zero.
  - intros p S.
    destruct (event_generator_total w {| command := cmd; timeout := Some 0 |})
      as [tr G].
    pose proof G as G'. rewrite (event_generator_spawned _ _ p S) in G'.
    destruct (stream_loop_ending _ _ _ _ _ _ G') as (body & tail & E & B & X).
    exists tr, body. split; [exact G|]. split; [exact B|].
    rewrite E. destruct X as [|now TR|e].
    + left. reflexivity.
    + cbn [timeout] in TR. rewrite timeout_zero_never_reached in TR. discriminate.
    + right. exists e. reflexivity.
  - intros args c S A E L.
    rewrite (execute_command_raised w {| command := cmd; timeout := Some 0 |}
               (TimeoutExpired (repr_args w args) 0)); [reflexivity|].
    rewrite (execute_try_run w {| command := cmd; timeout := Some 0 |} args S).
    cbn [timeout]. rewrite (run_expired w args c 0 A E); [reflexivity|lia|lia].
Qed.

Lemma timeout_zero_disagreement_witness :
  event_generator sleep1_world (sleep1_request (Some 0))
  = Some [Wait; Yield (done_event 0)]
  /\ execute_command sleep1_world (sleep1_request (Some 0)) =
     Returned {| stdout := EmptyString;
                 stderr := "Command timed out after 0 seconds";
                 exit_code := 124 |}.
Proof.
  destruct (timeout_zero_disagreement sleep1_world "sleep 1") as (G & _ & X).
  split.
  - unfold sleep1_request. rewrite G. vm_compute. reflexivity.
  - apply (X ["sleep"; "1"] (sleeps 1000)).
    + reflexivity.
    + discriminate.
    + reflexivity.
    + reflexivity.
Defined.

(** ** Lines on the two channels *)

Lemma take_line_lines (s l r : string) :
  asyncio.take_line s = Some (l, r) -> lines_of s = l :: lines_of r.
Proof.
  revert l r. induction s as [|c s IH]; intros l r; cbn [asyncio.take_line lines_of];
    [discriminate|].
  destruct (Ascii.eqb c LF).
  - intros H; inversion H; subst. reflexivity.
  - destruct (asyncio.take_line s) as [[l' r']|]; [|discriminate].
    intros H; inversion H; subst. rewrite (IH _ _ eq_refl). reflexivity.
Qed.

Lemma take_line_none_lines (s : string) :
  asyncio.take_line s = None ->
  lines_of s = (if truthy s then [s] else []) /\ without LF s = true.
Proof.
  induction s as [|c s IH]; cbn [asyncio.take_line lines_of truthy];
    [intros _; split; reflexivity|].
  unfold without. cbn [chars list_ascii_of_string forallb].
  destruct (Ascii.eqb c LF); [discriminate|].
  destruct (asyncio.take_line s) as [[l' r']|]; [discriminate|].
  intros _. destruct (IH eq_refl) as [L W]. rewrite L. split.
  - destruct s; reflexivity.
  - exact W.
Qed.

Lemma take_line_app (s l r x : string) :
  asyncio.take_line s = Some (l, r) ->
  asyncio.take_line (s ++ x) = Some (l, r ++ x).
Proof.
  revert l r. induction s as [|c s IH]; intros l r; cbn [asyncio.take_line append];
    [discriminate|].
  destruct (Ascii.eqb c LF).
  - intros H; inversion H; subst. reflexivity.
  - destruct (asyncio.take_line s) as [[l' r']|]; [|discriminate].
    intros H; inversion H; subst. rewrite (IH _ _ eq_refl). reflexivity.
Qed.

Lemma take_line_truthy (s l r : string) :
  asyncio.take_line s = Some (l, r) -> truthy l = true.
Proof.
  destruct s as [|c b]; [discriminate|]. cbn [asyncio.take_line].
  destruct (Ascii.eqb c LF); [intros T; inversion T; reflexivity|].
  destruct (asyncio.take_line b) as [[? ?]|]; intros T; inversion T; reflexivity.
Qed.

(** A read that does not overrun the limit takes the first line of what the
    reader had to deliver, or nothing. *)
Lemma readuntil_content (deadline eof_at : Z) (incoming : list (Z * string)) :
  forall now buf r now' reader,
    asyncio.readuntil deadline eof_at now buf incoming = (r, now', reader) ->
    match r with
    | asyncio.Got (Raised _) => True
    | _ => lines_of (buf ++ written incoming)
           = (got r ++ lines_of (remaining reader))%list
    end.
Proof.
  induction incoming as [|[t d] later IH]; intros now buf r now' reader;
    cbn [asyncio.readuntil].
  - cbn [written fold_right]. rewrite append_nil_r.
    destruct (asyncio.take_line buf) as [[l rest]|] eqn:T.
    + destruct (asyncio.limit <? Z.of_nat (String.length l) - 1);
        intros H; inversion H; subst; [exact I|].
      unfold remaining. cbn.
      rewrite append_nil_r. rewrite (take_line_lines _ _ _ T).
      rewrite (take_line_truthy _ _ _ T). reflexivity.
    + destruct (take_line_none_lines _ T) as [L _].
      destruct (asyncio.limit <? Z.of_nat (String.length buf));
        [intros H; inversion H; subst; exact I|].
      destruct (eof_at <=? deadline); intros H; inversion H; subst;
        unfold remaining; cbn.
      * rewrite L, app_nil_r. reflexivity.
      * rewrite append_nil_r. reflexivity.
  - cbn [written fold_right snd].
    destruct (asyncio.take_line buf) as [[l rest]|] eqn:T.
    + destruct (asyncio.limit <? Z.of_nat (String.length l) - 1);
        intros H; inversion H; subst; [exact I|].
      unfold remaining. cbn.
      rewrite (take_line_lines _ _ _ (take_line_app _ _ _ _ T)).
      rewrite (take_line_truthy _ _ _ T). reflexivity.
    + destruct (asyncio.limit <? Z.of_nat (String.length buf));
        [intros H; inversion H; subst; exact I|].
      destruct (t <=? deadline).
      * intros H. pose proof (IH _ _ _ _ _ H) as C.
        fold (written later).
        rewrite append_assoc in C.
        destruct r as [[l|e]|]; [exact C|exact I|exact C].
      * intros H; inversion H; subst. unfold remaining. cbn. reflexivity.
Qed.

Lemma readline_content (deadline eof_at : Z) (incoming : list (Z * string)) :
  forall now buf r now' reader,
    asyncio.readline deadline eof_at now buf incoming = (r, now', reader) ->
    match r with
    | asyncio.Got (Raised _) => True
    | _ => lines_of (buf ++ written incoming)
           = (got r ++ lines_of (remaining reader))%list
    end.
Proof.
  intros now buf r now' reader R. unfold asyncio.readline in R.
  apply readuntil_content in R. rewrite feed_remaining in R. exact R.
Qed.

(** A turn of the loop taken while the child runs and the timeout is not
    reached, with its two reads named. *)
Lemma loop_turn_running (w : world) (request : ExecuteStreamRequest) (now : Z)
      (p : asyncio.Process) :
  asyncio.returncode p now = None ->
  timeout_reached (timeout request) now = false ->
  exists r1 now1 out r2 now2 err,
    asyncio.readline (now + 100) (exit_at (asyncio.proc p)) now
      (asyncio.buffer (asyncio.stdout p)) (asyncio.incoming (asyncio.stdout p))
    = (r1, now1, out)
    /\ asyncio.readline (now1 + 100) (exit_at (asyncio.proc p)) now1
         (asyncio.buffer (asyncio.stderr p)) (asyncio.incoming (asyncio.stderr p))
       = (r2, now2, err)
    /\ loop_turn w request now p =
       match forward w "stdout" r1 with
       | Raised e =>
           Over (on_exception
                   (Some {| asyncio.proc := asyncio.proc p; asyncio.stdout := out;
                            asyncio.stderr := asyncio.stderr p |}) now1 e)
       | Returned tr1 =>
           match forward w "stderr" r2 with
           | Raised e =>
               Over (tr1 ++ on_exception
                       (Some {| asyncio.proc := asyncio.proc p;
                                asyncio.stdout := out;
                                asyncio.stderr := err |}) now2 e)%list
           | Returned tr2 =>
               if exit_at (asyncio.proc p) <=? now2 + 10
               then Again (tr1 ++ tr2 ++ [Wait])%list
                          (Z.max now2 (exit_at (asyncio.proc p)))
                          {| asyncio.proc := asyncio.proc p; asyncio.stdout := out;
                             asyncio.stderr := err |}
               else Again (tr1 ++ tr2)%list (now2 + 10)
                          {| asyncio.proc := asyncio.proc p; asyncio.stdout := out;
                             asyncio.stderr := err |}
           end
       end.
Proof.
  intros RC TR. unfold loop_turn. rewrite RC, TR.
  destruct (asyncio.readline (now + 100) (exit_at (asyncio.proc p)) now
              (asyncio.buffer (asyncio.stdout p))
              (asyncio.incoming (asyncio.stdout p))) as [[r1 now1] out] eqn:R1.
  cbn [asyncio.stderr asyncio.proc asyncio.stdout].
  destruct (asyncio.readline (now1 + 100) (exit_at (asyncio.proc p)) now1
              (asyncio.buffer (asyncio.stderr p))
              (asyncio.incoming (asyncio.stderr p))) as [[r2 now2] err] eqn:R2.
  exists r1, now1, out, r2, now2, err.
  split; [reflexivity|]. split; [exact R2|].
  destruct (forward w "stdout" r1); [|reflexivity].
  destruct (forward w "stderr" r2); [|reflexivity].
  unfold asyncio.wait. destruct (exit_at (asyncio.proc p) <=? now2 + 10); reflexivity.
Qed.

(** What [forward] yields: the line read, its trailing newline stripped. *)
Lemma forward_got (w : world) (name : string) (r : asyncio.awaited (Outcome string))
      (tr : list action) :
  forward w name r = Returned tr ->
  tr = map (fun l => Yield {| event := name; data := rstrip_newlines l |}) (got r)
  /\ Forall (fun l => decodable l = true) (got r).
Proof.
  unfold forward, got. destruct r as [[l|x]|].
  - destruct (truthy l).
    + unfold decode. destruct (decodable l) eqn:D; cbn [bind]; [|discriminate].
      intros H; inversion H; subst. split; [reflexivity|]. repeat constructor. exact D.
    + intros H; inversion H; subst. split; [reflexivity|constructor].
  - discriminate.
  - intros H; inversion H; subst. split; [reflexivity|constructor].
Qed.

(** [forward] raises on a read that overran the limit and on a line that
    cannot be decoded, and only then. *)
Lemma forward_raised (w : world) (name : string) (r : asyncio.awaited (Outcome string))
      (e : exn) :
  forward w name r = Raised e ->
  r = asyncio.Got (Raised e)
  \/ exists l, r = asyncio.Got (Returned l) /\ truthy l = true
               /\ decodable l = false
               /\ e = UnicodeDecodeError (codec_diag w l).
Proof.
  unfold forward. destruct r as [[l|x]|]; [| |discriminate].
  - destruct (truthy l) eqn:T; [|discriminate].
    unfold decode. destruct (decodable l) eqn:D; cbn [bind]; [discriminate|].
    intros H; inversion H; subst. right. exists l. repeat split; assumption.
  - intros H; inversion H; subst. left. reflexivity.
Qed.

Lemma channel_app (name : string) (a b : list action) :
  channel name (a ++ b) = (channel name a ++ channel name b)%list.
Proof. unfold channel. rewrite events_app, filter_app, map_app. reflexivity. Qed.

Lemma channel_forward (name name' : string) (ls : list string) :
  channel name'
    (map (fun l => Yield {| event := name; data := rstrip_newlines l |}) ls)
  = if String.eqb name name' then map rstrip_newlines ls else [].
Proof.
  unfold channel. induction ls as [|l ls IH]; cbn [map events filter event].
  - destruct (String.eqb name name'); reflexivity.
  - destruct (String.eqb name name') eqn:E; cbn [map data]; rewrite IH; reflexivity.
Qed.

Lemma channel_on_exception (name : string) (process : option asyncio.Process)
      (now : Z) (e : exn) :
  name = "stdout" \/ name = "stderr" ->
  channel name (on_exception process now e) = [].
Proof.
  intros N. unfold channel. rewrite on_exception_events.
  destruct N as [-> | ->]; reflexivity.
Qed.

(** What a turn yields on the two channels: the lines it took from the
    two readers. *)
Lemma loop_turn_channels (w : world) (request : ExecuteStreamRequest) (now : Z)
      (p : asyncio.Process) :
  exists ro re,
    channel "stdout" (match loop_turn w request now p with
                      | Over tr | Again tr _ _ => tr end) = map rstrip_newlines ro
    /\ channel "stderr" (match loop_turn w request now p with
                         | Over tr | Again tr _ _ => tr end) = map rstrip_newlines re
    /\ Forall (fun l => decodable l = true) ro
    /\ Forall (fun l => decodable l = true) re
    /\ match loop_turn w request now p with
       | Over _ =>
           (exists rest, lines_of (remaining (asyncio.stdout p)) = (ro ++ rest)%list)
           /\ (exists rest, lines_of (remaining (asyncio.stderr p)) = (re ++ rest)%list)
       | Again _ _ p' =>
           lines_of (remaining (asyncio.stdout p))
           = (ro ++ lines_of (remaining (asyncio.stdout p')))%list
           /\ lines_of (remaining (asyncio.stderr p))
              = (re ++ lines_of (remaining (asyncio.stderr p')))%list
       end.
Proof.
  destruct (asyncio.returncode p now) as [code|] eqn:RC.
  { unfold loop_turn. rewrite RC. exists [], []. repeat split; try constructor;
      eexists; reflexivity. }
  destruct (timeout_reached (timeout request) now) eqn:TR.
  { unfold loop_turn. rewrite RC, TR. exists [], []. repeat split; try constructor;
      eexists; reflexivity. }
  destruct (loop_turn_running w request now p RC TR)
    as (r1 & now1 & out & r2 & now2 & err & R1 & R2 & ->).
  pose proof (readline_content _ _ _ _ _ _ _ _ R1) as C1.
  pose proof (readline_content _ _ _ _ _ _ _ _ R2) as C2.
  fold (remaining (asyncio.stdout p)) in C1. fold (remaining (asyncio.stderr p)) in C2.
  destruct (forward w "stdout" r1) as [tr1|e1] eqn:F1.
  2:{ exists [], []. rewrite !channel_on_exception by auto.
      repeat split; try constructor; eexists; reflexivity. }
  destruct (forward_got _ _ _ _ F1) as [-> D1].
  assert (lines_of (remaining (asyncio.stdout p))
          = (got r1 ++ lines_of (remaining out))%list) as C1'.
  { destruct r1 as [[l|x]|]; [exact C1|discriminate|exact C1]. }
  clear C1. rename C1' into C1.
  destruct (forward w "stderr" r2) as [tr2|e2] eqn:F2.
  2:{ exists (got r1), []. rewrite !channel_app, !channel_forward.
      rewrite !channel_on_exception by auto. cbn [String.eqb Ascii.eqb Bool.eqb].
      rewrite app_nil_r. repeat split; try constructor; try assumption.
      - eexists; exact C1.
      - eexists; reflexivity. }
  destruct (forward_got _ _ _ _ F2) as [-> D2].
  assert (lines_of (remaining (asyncio.stderr p))
          = (got r2 ++ lines_of (remaining err))%list) as C2'.
  { destruct r2 as [[l|x]|]; [exact C2|discriminate|exact C2]. }
  clear C2. rename C2' into C2.
  exists (got r1), (got r2).
  destruct (exit_at (asyncio.proc p) <=? now2 + 10);
    rewrite !channel_app, !channel_forward; cbn [String.eqb Ascii.eqb Bool.eqb];
    cbn [asyncio.stdout asyncio.stderr];
    rewrite ?app_nil_r; repeat split; try assumption; reflexivity.
Qed.

Lemma spawn_started (w : world) (request : ExecuteStreamRequest)
      (args : list string) (c : child) :
  shlex.split (command request) = Returned args ->
  args <> [] ->
  exec w cwd args = spawned c ->
  spawn w request = Returned (started c).
Proof.
  intros S A E. unfold spawn. rewrite S. cbn [bind].
  unfold asyncio.create_subprocess_exec. destruct args as [|a args]; [congruence|].
  rewrite E. reflexivity.
Qed.

Lemma stream_loop_delivered (w : world) (request : ExecuteStreamRequest)
      (fuel : nat) :
  forall now p tr,
    stream_loop fuel w request now p = Some tr ->
    delivered (channel "stdout" tr) (remaining (asyncio.stdout p))
    /\ delivered (channel "stderr" tr) (remaining (asyncio.stderr p)).
Proof.
  induction fuel as [|fuel IH]; intros now p tr; [discriminate|].
  cbn [stream_loop].
  destruct (loop_turn_channels w request now p) as (ro & re & Co & Ce & _ & _ & L).
  destruct (loop_turn w request now p) as [tr0|tr0 now' p'].
  - intros H; inversion H; subst.
    destruct L as [[resto Lo] [reste Le]]. split.
    + exists ro, resto. split; assumption.
    + exists re, reste. split; assumption.
  - destruct (stream_loop fuel w request now' p') as [rest|] eqn:R; [|discriminate].
    intros H; inversion H; subst.
    destruct (IH _ _ _ R) as [(ro' & resto & Lo' & Co') (re' & reste & Le' & Ce')].
    destruct L as [Lo Le]. rewrite !channel_app. split.
    + exists (ro ++ ro')%list, resto. split.
      * rewrite Lo, Lo', app_assoc. reflexivity.
      * rewrite Co, Co', map_app. reflexivity.
    + exists (re ++ re')%list, reste. split.
      * rewrite Le, Le', app_assoc. reflexivity.
      * rewrite Ce, Ce', map_app. reflexivity.
Qed.

(** X1. On either channel the generator yields the first lines of what
    the child wrote to that pipe, in the order they were written, one
    event a line, the trailing newline stripped: no line is yielded twice,
    out of order, or before an earlier one. *)
Theorem event_generator_in_order (w : world) (request : ExecuteStreamRequest)
        (args : list string) (c : child) :
  shlex.split (command request) = Returned args ->
  args <> [] ->
  exec w cwd args = spawned c ->
  exists tr,
    event_generator w request = Some tr
    /\ delivered (channel "stdout" tr) (written (stdout_writes c))
    /\ delivered (channel "stderr" tr) (written (stderr_writes c)).
Proof.
  intros S A E. pose proof (spawn_started w request args c S A E) as P.
  destruct (event_generator_total w request) as [tr G]. exists tr.
  split; [exact G|].
  rewrite (event_generator_spawned w request _ P) in G.
  apply (stream_loop_delivered _ _ _ _ _ _ G).
Qed.

Lemma event_generator_in_order_witness :
  exists tr,
    event_generator three_lines_world three_lines_request = Some tr
    /\ delivered (channel "stdout" tr) (written (stdout_writes three_lines))
    /\ delivered (channel "stderr" tr) (written (stderr_writes three_lines)).
Proof.
  apply (event_generator_in_order three_lines_world three_lines_request
           ["sh"; "-c"; "for i in 1 2 3; do echo Line $i; sleep 0.5; done"]).
  - vm_compute; reflexivity.
  - discriminate.
  - vm_compute; reflexivity.
Defined.

Lemma rstrip_newlines_clean (s : string) :
  without LF s = true -> rstrip_newlines s = s.
Proof.
  unfold without. induction s as [|c s IH]; [reflexivity|].
  cbn [chars list_ascii_of_string forallb rstrip_newlines]. intros H.
  apply andb_true_iff in H as [Hc Hs]. apply negb_true_iff in Hc.
  fold (chars s) in Hs. rewrite (IH Hs). rewrite Hc. destruct s; reflexivity.
Qed.

Lemma rstrip_newlines_cons (c : ascii) (s : string) :
  Ascii.eqb c LF = false ->
  rstrip_newlines (String c s) = String c (rstrip_newlines s).
Proof.
  intros H. cbn [rstrip_newlines]. rewrite H.
  destruct (rstrip_newlines s); reflexivity.
Qed.

(** A line without its trailing newline holds no newline at all. *)
Lemma lines_of_stripped (s : string) :
  Forall (fun l => without LF (rstrip_newlines l) = true) (lines_of s).
Proof.
  induction s as [|c s IH]; cbn [lines_of]; [constructor|].
  destruct (Ascii.eqb c LF) eqn:E.
  - constructor; [|exact IH]. apply Ascii.eqb_eq in E. subst. reflexivity.
  - destruct (lines_of s) as [|l ls]; constructor.
    + cbn. rewrite E. cbn. rewrite E. reflexivity.
    + constructor.
    + inversion IH; subst. rewrite (rstrip_newlines_cons c l E).
      unfold without in *. cbn [chars list_ascii_of_string forallb].
      rewrite E. cbn [negb andb]. assumption.
    + inversion IH; subst. assumption.
Qed.

Lemma delivered_stripped (lines : list string) (content : string) :
  delivered lines content -> Forall (fun d => without LF d = true) lines.
Proof.
  intros (read & rest & L & ->).
  pose proof (lines_of_stripped content) as F. rewrite L in F.
  apply Forall_app in F as [F _].
  apply Forall_map. exact F.
Qed.

Lemma channel_in (name : string) (tr : list action) (e : sse) :
  In e (events tr) -> event e = name -> In (data e) (channel name tr).
Proof.
  intros I N. unfold channel. apply in_map. apply filter_In. split; [exact I|].
  rewrite N. apply String.eqb_refl.
Qed.

(** X2. The data of an output event never holds a line feed: an event
    carries one line, and what is yielded is free of the newline that
    ended it. *)
Theorem output_event_is_one_line (w : world) (request : ExecuteStreamRequest) :
  exists tr,
    event_generator w request = Some tr
    /\ forall e, In e (events tr) -> is_output e -> without LF (data e) = true.
Proof.
  destruct (event_generator_total w request) as [tr G]. exists tr.
  split; [exact G|]. intros e I O.
  destruct (spawn w request) as [p|x] eqn:S.
  - rewrite (event_generator_spawned w request p S) in G.
    destruct (stream_loop_delivered _ _ _ _ _ _ G) as [Do De].
    destruct O as [O|O].
    + pose proof (delivered_stripped _ _ Do) as F.
      rewrite Forall_forall in F. apply F. apply channel_in; assumption.
    + pose proof (delivered_stripped _ _ De) as F.
      rewrite Forall_forall in F. apply F. apply channel_in; assumption.
  - unfold spawn in S. unfold event_generator in G. rewrite S in G.
    inversion G; subst. rewrite on_exception_events in I.
    destruct I as [<-|[<-|[]]]; destruct O as [O|O]; discriminate.
Qed.

(** ** Decodable output *)

Lemma decodable_app_unit (pre : string) :
  (forall x, utf8_valid (chars pre ++ x) = utf8_valid x) ->
  forall s, decodable (pre ++ s) = decodable s.
Proof.
  intros U s. unfold decodable. fold (chars (pre ++ s)). rewrite chars_app. apply U.
Qed.

Lemma in_range_not_lf (lo hi : N) (c : ascii) :
  (10 < lo)%N -> in_range lo hi c = true -> Ascii.eqb c LF = false.
Proof.
  intros L H. destruct (Ascii.eqb c LF) eqn:E; [|reflexivity].
  apply Ascii.eqb_eq in E. subst. unfold in_range in H.
  apply andb_true_iff in H as [H _]. apply N.leb_le in H. cbn in H. lia.
Qed.

(** A decodable text starts with one well-formed character: a newline,
    or a sequence of one to four bytes none of which is a newline. *)
Lemma decodable_first (c : ascii) (r : string) :
  decodable (String c r) = true ->
  exists pre r',
    String c r = pre ++ r'
    /\ (String.length r' < String.length (String c r))%nat
    /\ (forall x, utf8_valid (chars pre ++ x) = utf8_valid x)
    /\ decodable r' = true
    /\ (pre = String LF EmptyString
        \/ (truthy pre = true /\ without LF pre = true)).
Proof.
  unfold decodable. cbn [list_ascii_of_string utf8_valid].
  destruct (in_range 0 127 c) eqn:A.
  { intros V. exists (String c EmptyString), r. split; [reflexivity|].
    split; [cbn; lia|]. split; [|split; [exact V|]].
    - intros x. cbn. rewrite A. reflexivity.
    - destruct (Ascii.eqb c LF) eqn:E.
      + left. apply Ascii.eqb_eq in E. subst. reflexivity.
      + right. split; [reflexivity|]. unfold without. cbn. rewrite E. reflexivity. }
  destruct (in_range 194 223 c) eqn:B.
  { destruct r as [|c1 r1]; [discriminate|]. cbn [list_ascii_of_string]. intros V.
    apply andb_true_iff in V as [C1 V].
    exists (String c (String c1 EmptyString)), r1. split; [reflexivity|].
    split; [cbn; lia|]. split; [|split; [exact V|]].
    - intros x. cbn. rewrite A, B, C1. reflexivity.
    - right. split; [reflexivity|]. unfold without. cbn.
      rewrite (in_range_not_lf 194 223 c ltac:(lia) B).
      rewrite (in_range_not_lf 128 191 c1 ltac:(lia) C1). reflexivity. }
  destruct (in_range 224 239 c) eqn:C.
  { destruct r as [|c1 [|c2 r2]]; try discriminate.
    cbn [list_ascii_of_string]. intros V.
    apply andb_true_iff in V as [V V2]. apply andb_true_iff in V as [C1 C2].
    exists (String c (String c1 (String c2 EmptyString))), r2.
    split; [reflexivity|]. split; [cbn; lia|]. split; [|split; [exact V2|]].
    - intros x. cbn. rewrite A, B, C, C1, C2. reflexivity.
    - right. split; [reflexivity|]. unfold without. cbn.
      rewrite (in_range_not_lf 224 239 c ltac:(lia) C).
      rewrite (in_range_not_lf 128 191 c2 ltac:(lia) C2).
      assert (L1 : Ascii.eqb c1 LF = false).
      { destruct (in_range 224 224 c); [|destruct (in_range 237 237 c)].
        - apply (in_range_not_lf 160 191 c1 ltac:(lia) C1).
        - apply (in_range_not_lf 128 159 c1 ltac:(lia) C1).
        - apply (in_range_not_lf 128 191 c1 ltac:(lia) C1). }
      rewrite L1. reflexivity. }
  destruct (in_range 240 244 c) eqn:D; [|discriminate].
  destruct r as [|c1 [|c2 [|c3 r3]]]; try discriminate.
  cbn [list_ascii_of_string]. intros V.
  apply andb_true_iff in V as [V V3]. apply andb_true_iff in V as [V C3].
  apply andb_true_iff in V as [C1 C2].
  exists (String c (String c1 (String c2 (String c3 EmptyString)))), r3.
  split; [reflexivity|]. split; [cbn; lia|]. split; [|split; [exact V3|]].
  - intros x. cbn. rewrite A, B, C, D, C1, C2, C3. reflexivity.
  - right. split; [reflexivity|]. unfold without. cbn.
    rewrite (in_range_not_lf 240 244 c ltac:(lia) D).
    rewrite (in_range_not_lf 128 191 c2 ltac:(lia) C2).
    rewrite (in_range_not_lf 128 191 c3 ltac:(lia) C3).
    assert (L1 : Ascii.eqb c1 LF = false).
    { destruct (in_range 240 240 c); [|destruct (in_range 244 244 c)].
      - apply (in_range_not_lf 144 191 c1 ltac:(lia) C1).
      - apply (in_range_not_lf 128 143 c1 ltac:(lia) C1).
      - apply (in_range_not_lf 128 191 c1 ltac:(lia) C1). }
    rewrite L1. reflexivity.
Qed.

(** Characters that are no newline stay in the line they start. *)
Lemma lines_of_prefix (pre s : string) :
  truthy pre = true ->
  without LF pre = true ->
  lines_of (pre ++ s)
  = match lines_of s with
    | [] => [pre]
    | l :: ls => (pre ++ l) :: ls
    end.
Proof.
  unfold without. induction pre as [|c pre IH]; [discriminate|].
  intros _. cbn [chars list_ascii_of_string forallb append lines_of]. intros H.
  apply andb_true_iff in H as [Hc Hp]. apply negb_true_iff in Hc. rewrite Hc.
  destruct pre as [|c' pre'].
  - cbn [append]. destruct (lines_of s); reflexivity.
  - rewrite (IH eq_refl Hp). destruct (lines_of s); reflexivity.
Qed.

(** The lines of a decodable text are decodable. *)
Lemma lines_of_decodable (s : string) :
  decodable s = true -> Forall (fun l => decodable l = true) (lines_of s).
Proof.
  remember (String.length s) as n eqn:N.
  revert s N. induction n as [n IH] using lt_wf_ind. intros s N V.
  destruct s as [|c r]; [constructor|].
  destruct (decodable_first c r V) as (pre & r' & E & L & U & V' & P).
  rewrite E. pose proof (IH (String.length r') ltac:(lia) r' eq_refl V') as F.
  destruct P as [-> | [T W]].
  - cbn [append lines_of]. rewrite Ascii.eqb_refl. constructor; [reflexivity|exact F].
  - rewrite (lines_of_prefix pre r' T W).
    destruct (lines_of r') as [|l ls].
    + constructor; [|constructor].
      rewrite <- (append_nil_r pre). rewrite (decodable_app_unit pre U). reflexivity.
    + inversion F; subst. constructor; [|assumption].
      rewrite (decodable_app_unit pre U). assumption.
Qed.

(** ** The limit of the readers *)

Lemma take_line_length (s l r : string) :
  asyncio.take_line s = Some (l, r) ->
  String.length l = S (String.length (rstrip_newlines l)).
Proof.
  revert l r. induction s as [|c s IH]; intros l r; cbn [asyncio.take_line];
    [discriminate|].
  destruct (Ascii.eqb c LF) eqn:E.
  - intros H; inversion H; subst. apply Ascii.eqb_eq in E. subst. reflexivity.
  - destruct (asyncio.take_line s) as [[l' r']|]; [|discriminate].
    intros H; inversion H; subst. rewrite (rstrip_newlines_cons c l' E).
    cbn [String.length]. rewrite (IH _ _ eq_refl). reflexivity.
Qed.

Lemma rstrip_newlines_app (pre s : string) :
  without LF pre = true ->
  rstrip_newlines (pre ++ s) = pre ++ rstrip_newlines s.
Proof.
  unfold without. induction pre as [|c pre IH]; [reflexivity|].
  cbn [chars list_ascii_of_string forallb append]. intros H.
  apply andb_true_iff in H as [Hc Hp]. apply negb_true_iff in Hc.
  rewrite (rstrip_newlines_cons c _ Hc). rewrite (IH Hp). reflexivity.
Qed.

Lemma length_app (a b : string) :
  String.length (a ++ b) = (String.length a + String.length b)%nat.
Proof. induction a as [|c a IH]; cbn; [reflexivity|]. rewrite IH. reflexivity. Qed.

(** What a reader holds of a line that is not ended yet is no longer than
    the line. *)
Lemma short_prefix (buf rest : string) :
  without LF buf = true ->
  Forall short (lines_of (buf ++ rest)) ->
  Z.of_nat (String.length buf) <= asyncio.limit.
Proof.
  intros W F. destruct (truthy buf) eqn:T.
  2:{ destruct buf; [unfold asyncio.limit; cbn; lia|discriminate]. }
  rewrite (lines_of_prefix buf rest T W) in F.
  destruct (lines_of rest) as [|l ls]; apply Forall_inv in F; unfold short in F.
  - rewrite (rstrip_newlines_clean _ W) in F. exact F.
  - rewrite (rstrip_newlines_app _ l W), length_app in F. lia.
Qed.

(** A reader whose lines are short never overruns its limit. *)
Lemma readuntil_short (deadline eof_at : Z) (incoming : list (Z * string)) :
  forall now buf r now' reader,
    asyncio.readuntil deadline eof_at now buf incoming = (r, now', reader) ->
    Forall short (lines_of (buf ++ written incoming)) ->
    forall e, r <> asyncio.Got (Raised e).
Proof.
  induction incoming as [|[t d] later IH]; intros now buf r now' reader;
    cbn [asyncio.readuntil].
  - cbn [written fold_right].
    destruct (asyncio.take_line buf) as [[l rest]|] eqn:T.
    + intros H F. rewrite (take_line_lines _ _ _ (take_line_app _ _ _ _ T)) in F.
      inversion F as [|x xs S _]; subst. unfold short in S.
      pose proof (take_line_length _ _ _ T) as L.
      destruct (asyncio.limit <? Z.of_nat (String.length l) - 1) eqn:O.
      * apply Z.ltb_lt in O. lia.
      * inversion H; subst. discriminate.
    + intros H F. destruct (take_line_none_lines _ T) as [_ W].
      pose proof (short_prefix _ _ W F) as S.
      destruct (asyncio.limit <? Z.of_nat (String.length buf)) eqn:O;
        [apply Z.ltb_lt in O; lia|].
      destruct (eof_at <=? deadline); inversion H; subst; discriminate.
  - cbn [written fold_right snd]. fold (written later).
    destruct (asyncio.take_line buf) as [[l rest]|] eqn:T.
    + intros H F. rewrite (take_line_lines _ _ _ (take_line_app _ _ _ _ T)) in F.
      inversion F as [|x xs S _]; subst. unfold short in S.
      pose proof (take_line_length _ _ _ T) as L.
      destruct (asyncio.limit <? Z.of_nat (String.length l) - 1) eqn:O.
      * apply Z.ltb_lt in O. lia.
      * inversion H; subst. discriminate.
    + intros H F. destruct (take_line_none_lines _ T) as [_ W].
      pose proof (short_prefix _ _ W F) as S.
      destruct (asyncio.limit <? Z.of_nat (String.length buf)) eqn:O;
        [apply Z.ltb_lt in O; lia|].
      destruct (t <=? deadline).
      * apply (IH _ _ _ _ _ H). rewrite append_assoc. exact F.
      * inversion H; subst. discriminate.
Qed.

Lemma readline_short (deadline eof_at : Z) (incoming : list (Z * string)) :
  forall now buf r now' reader,
    asyncio.readline deadline eof_at now buf incoming = (r, now', reader) ->
    Forall short (lines_of (buf ++ written incoming)) ->
    forall e, r <> asyncio.Got (Raised e).
Proof.
  intros now buf r now' reader R F. unfold asyncio.readline in R.
  apply (readuntil_short _ _ _ _ _ _ _ _ R). rewrite feed_remaining. exact F.
Qed.

(** A read from a readable reader hands over a decodable line or nothing,
    and leaves the reader readable. *)
Lemma readline_readable (deadline eof_at now : Z) (reader : asyncio.StreamReader)
      (r : asyncio.awaited (Outcome string)) (now' : Z)
      (reader' : asyncio.StreamReader) :
  asyncio.readline deadline eof_at now (asyncio.buffer reader)
    (asyncio.incoming reader) = (r, now', reader') ->
  readable reader ->
  (forall e, r <> asyncio.Got (Raised e))
  /\ Forall (fun l => decodable l = true) (got r)
  /\ readable reader'.
Proof.
  intros R F. unfold readable in *.
  assert (N : forall e, r <> asyncio.Got (Raised e)).
  { apply (readline_short _ _ _ _ _ _ _ _ R). fold (remaining reader).
    eapply Forall_impl; [|exact F]. intros l [_ S]. exact S. }
  split; [exact N|].
  pose proof (readline_content _ _ _ _ _ _ _ _ R) as C.
  fold (remaining reader) in C.
  assert (C' : lines_of (remaining reader)
               = (got r ++ lines_of (remaining reader'))%list).
  { destruct r as [[l|x]|]; [exact C| |exact C]. exfalso. apply (N x). reflexivity. }
  rewrite C' in F. apply Forall_app in F as [G F]. split; [|exact F].
  eapply Forall_impl; [|exact G]. intros l [D _]. exact D.
Qed.

(** While the child runs, the timeout is not reached and what is read is
    short and can be decoded, a turn goes round again, within 210
    milliseconds. *)
Lemma loop_turn_readable (w : world) (request : ExecuteStreamRequest) (now : Z)
      (p : asyncio.Process) :
  asyncio.returncode p now = None ->
  timeout_reached (timeout request) now = false ->
  readable (asyncio.stdout p) ->
  readable (asyncio.stderr p) ->
  exists tr now' p',
    loop_turn w request now p = Again tr now' p'
    /\ readable (asyncio.stdout p')
    /\ readable (asyncio.stderr p')
    /\ now' <= now + 210.
Proof.
  intros RC TR Ro Re.
  destruct (loop_turn_running w request now p RC TR)
    as (r1 & now1 & out & r2 & now2 & err & R1 & R2 & ->).
  destruct (readline_readable _ _ _ _ _ _ _ R1 Ro) as (N1 & G1 & Ro').
  destruct (readline_readable _ _ _ _ _ _ _ R2 Re) as (N2 & G2 & Re').
  pose proof (readline_time _ _ _ _ _ _ _ _ R1 ltac:(lia)) as T1.
  pose proof (readline_time _ _ _ _ _ _ _ _ R2 ltac:(lia)) as T2.
  destruct (forward w "stdout" r1) as [tr1|e1] eqn:F1.
  2:{ exfalso. destruct (forward_raised _ _ _ _ F1) as [->|(l & -> & T & D & _)].
      - apply (N1 e1). reflexivity.
      - unfold got in G1. rewrite T in G1. inversion G1; subst. congruence. }
  destruct (forward w "stderr" r2) as [tr2|e2] eqn:F2.
  2:{ exfalso. destruct (forward_raised _ _ _ _ F2) as [->|(l & -> & T & D & _)].
      - apply (N2 e2). reflexivity.
      - unfold got in G2. rewrite T in G2. inversion G2; subst. congruence. }
  destruct (exit_at (asyncio.proc p) <=? now2 + 10) eqn:W.
  - do 3 eexists. split; [reflexivity|]. cbn [asyncio.stdout asyncio.stderr].
    split; [exact Ro'|]. split; [exact Re'|]. apply Z.leb_le in W. lia.
  - do 3 eexists. split; [reflexivity|]. cbn [asyncio.stdout asyncio.stderr].
    split; [exact Ro'|]. split; [exact Re'|]. lia.
Qed.

Lemma quiet_events (tr : list action) :
  Forall quiet tr -> Forall is_output (events tr) /\ ~ In Kill tr.
Proof.
  induction 1 as [|a tr Q _ [IH1 IH2]]; [split; [constructor|intros []]|].
  destruct Q as [(e & -> & O)| ->]; cbn [events]; split.
  - constructor; assumption.
  - intros [H|H]; [discriminate|]. apply IH2; exact H.
  - exact IH1.
  - intros [H|H]; [discriminate|]. apply IH2; exact H.
Qed.

Lemma loop_turn_again_quiet (w : world) (request : ExecuteStreamRequest) (now : Z)
      (p : asyncio.Process) (tr : list action) (now' : Z) (p' : asyncio.Process) :
  loop_turn w request now p = Again tr now' p' -> Forall quiet tr.
Proof.
  intros T. destruct (loop_turn_again _ _ _ _ _ _ _ T) as (_ & _ & _ & D).
  destruct D as [(_ & tr0 & -> & Y)|(_ & _ & Y)].
  - apply Forall_app. split.
    + eapply Forall_impl; [|exact Y]. intros a H. left. exact H.
    + constructor; [right; reflexivity|constructor].
  - eapply Forall_impl; [|exact Y]. intros a H. left. exact H.
Qed.

(** With no timeout to reach and output that is made of short lines and
    can be decoded, the loop only yields output and waits, and ends with
    the child's status. *)
Lemma stream_loop_completes (w : world) (request : ExecuteStreamRequest)
      (fuel : nat) :
  (forall now, timeout_reached (timeout request) now = false) ->
  forall now p tr,
    readable (asyncio.stdout p) ->
    readable (asyncio.stderr p) ->
    stream_loop fuel w request now p = Some tr ->
    exists body,
      tr = (body ++ [Yield (done_event (exit_status (asyncio.proc p)))])%list
      /\ Forall quiet body.
Proof.
  intros TR. induction fuel as [|fuel IH]; intros now p tr Ro Re; [discriminate|].
  cbn [stream_loop].
  destruct (asyncio.returncode p now) as [code|] eqn:RC.
  - unfold loop_turn. rewrite RC. intros H; inversion H; subst.
    exists []. split; [|constructor].
    unfold asyncio.returncode in RC.
    destruct (exit_at (asyncio.proc p) <=? now); inversion RC; reflexivity.
  - destruct (loop_turn_readable w request now p RC (TR now) Ro Re)
      as (tr0 & now' & p' & T & Ro' & Re' & _).
    rewrite T.
    destruct (stream_loop fuel w request now' p') as [rest|] eqn:R; [|discriminate].
    intros H; inversion H; subst.
    destruct (IH _ _ _ Ro' Re' R) as (body & -> & Q).
    destruct (loop_turn_again _ _ _ _ _ _ _ T) as (_ & _ & P & _).
    exists (tr0 ++ body)%list. rewrite P, app_assoc. split; [reflexivity|].
    apply Forall_app. split; [|exact Q].
    apply (loop_turn_again_quiet _ _ _ _ _ _ _ T).
Qed.

Lemma started_readable (c : child) :
  decodable (written (stdout_writes c)) = true ->
  decodable (written (stderr_writes c)) = true ->
  Forall short (lines_of (written (stdout_writes c))) ->
  Forall short (lines_of (written (stderr_writes c))) ->
  readable (asyncio.stdout (started c)) /\ readable (asyncio.stderr (started c)).
Proof.
  intros Do De So Se. unfold readable, remaining, started. cbn.
  split; apply Forall_and; try assumption; apply lines_of_decodable; assumption.
Qed.

(** X3. For a child whose output on both pipes is decodable and made of
    lines of at most 65536 bytes, the newline not counted, run with no
    timeout or with a timeout of 0, the generator yields output events
    only, never kills the child, and ends with one done event that
    carries the child's exit status: no error event is yielded. *)
Theorem event_generator_completes (w : world) (request : ExecuteStreamRequest)
        (args : list string) (c : child) :
  shlex.split (command request) = Returned args ->
  args <> [] ->
  exec w cwd args = spawned c ->
  timeout request = None \/ timeout request = Some 0 ->
  decodable (written (stdout_writes c)) = true ->
  decodable (written (stderr_writes c)) = true ->
  Forall short (lines_of (written (stdout_writes c))) ->
  Forall short (lines_of (written (stderr_writes c))) ->
  exists tr body,
    event_generator w request = Some tr
    /\ events tr = (body ++ [done_event (exit_status c)])%list
    /\ Forall is_output body
    /\ ~ In Kill tr.
Proof.
  intros S A E T Do De So Se.
  pose proof (spawn_started w request args c S A E) as P.
  destruct (event_generator_total w request) as [tr G].
  pose proof G as G'. rewrite (event_generator_spawned w request _ P) in G'.
  destruct (started_readable c Do De So Se) as [Ro Re].
  assert (TR : forall now, timeout_reached (timeout request) now = false).
  { intros now. destruct T as [-> | ->]; reflexivity. }
  destruct (stream_loop_completes w request _ TR _ _ _ Ro Re G') as (body & -> & Q).
  destruct (quiet_events body Q) as [O K].
  exists (body ++ [Yield (done_event (exit_status c))])%list, (events body).
  split; [exact G|]. split; [rewrite events_app; reflexivity|].
  split; [exact O|].
  intros I. apply in_app_or in I as [I|[I|[]]]; [exact (K I)|discriminate].
Qed.

Lemma event_generator_completes_witness :
  exists tr body,
    event_generator three_lines_world three_lines_request = Some tr
    /\ events tr = (body ++ [done_event (exit_status three_lines)])%list
    /\ Forall is_output body
    /\ ~ In Kill tr.
Proof.
  apply (event_generator_completes three_lines_world three_lines_request
           ["sh"; "-c"; "for i in 1 2 3; do echo Line $i; sleep 0.5; done"]).
  - vm_compute; reflexivity.
  - discriminate.
  - vm_compute; reflexivity.
  - left. reflexivity.
  - vm_compute; reflexivity.
  - vm_compute; reflexivity.
  - repeat constructor; unfold short; vm_compute; discriminate.
  - repeat constructor; unfold short; vm_compute; discriminate.
Defined.

(** ** Timeouts of the stream *)




(** X6. A command that does not parse, or whose program cannot be
    spawned, is answered alike by the two endpoints, whatever the
    timeout: exit code 1 and the same message, as stderr of the response
    and as data of the one error event. *)
Theorem failures_agree (w : world) (request : ExecuteRequest) (e : exn) :
  cannot_start w request e ->
  execute_command w request =
  Returned {| stdout := EmptyString;
              stderr := "Failed to execute command: " ++ str_exn e;
              exit_code := 1 |}
  /\ event_generator w request =
     Some [Yield (error_event ("Failed to execute command: " ++ str_exn e));
           Yield (done_event 1)].
Proof.
  intros [S|(args & msg & S & A & E & ->)].
  - split; [apply (execute_command_parse_error w request e S)|].
    unfold event_generator. rewrite S. reflexivity.
  - split.
    + rewrite (execute_command_raised w request (OSError msg)); [reflexivity|].
      rewrite (execute_try_run w request args S). unfold subprocess.run.
      destruct args as [|a args]; [congruence|]. rewrite E. reflexivity.
    + unfold event_generator. rewrite S. cbn [bind].
      unfold asyncio.create_subprocess_exec.
      destruct args as [|a args]; [congruence|]. rewrite E. reflexivity.
Qed.

Lemma failures_agree_witness :
  execute_command sleep_world missing_request =
  Returned {| stdout := EmptyString;
              stderr := "Failed to execute command: [Errno 2] No such file or directory";
              exit_code := 1 |}
  /\ event_generator sleep_world missing_request =
     Some [Yield (error_event
             "Failed to execute command: [Errno 2] No such file or directory");
           Yield (done_event 1)].
Proof.
  apply (failures_agree sleep_world missing_request
           (OSError "[Errno 2] No such file or directory")).
  right. exists ["no-such-program"; "--flag"], "[Errno 2] No such file or directory".
  split; [vm_compute; reflexivity|]. split; [discriminate|].
  split; [vm_compute; reflexivity|reflexivity].
Defined.

(** ** Commands with no argument *)

Lemma truthy_snoc (s : string) (c : ascii) : truthy (snoc s c) = true.
Proof. destruct s; reflexivity. Qed.

Lemma read_tokens_nil (l : list ascii) :
  forall st quoted esc tok,
    sane st esc ->
    shlex.read_tokens l st quoted esc tok = Returned [] ->
    shlex.emits tok quoted = false
    /\ (st = shlex.st_space \/ st = shlex.st_word)
    /\ forallb shlex.whitespace l = true.
Proof.
  induction l as [|c l IH]; intros st quoted esc tok Sn; cbn [shlex.read_tokens].
  - destruct st; try contradiction; try discriminate;
      unfold shlex.last_token; destruct (shlex.emits tok quoted); intros H;
        try discriminate; auto.
  - destruct st; try contradiction.
    + destruct (shlex.whitespace c) eqn:W.
      * destruct (shlex.emits tok quoted) eqn:Em.
        -- destruct (shlex.read_tokens l shlex.st_space false shlex.st_space
                       EmptyString); cbn [bind]; discriminate.
        -- intros H. apply IH in H; [|exact I]. destruct H as (_ & _ & B).
           cbn [forallb]. rewrite W, B. auto.
      * destruct (shlex.escape c).
        { intros H. apply IH in H; [|exact I].
          destruct H as (_ & [X|X] & _); discriminate. }
        destruct (shlex.quotes c).
        { intros H. apply IH in H; [|exact I].
          destruct H as (_ & [X|X] & _); discriminate. }
        intros H. apply IH in H; [|exact I]. destruct H as (Em & _ & _).
        discriminate.
    + destruct (shlex.whitespace c) eqn:W.
      * destruct (shlex.emits tok quoted) eqn:Em.
        -- destruct (shlex.read_tokens l shlex.st_space false shlex.st_space
                       EmptyString); cbn [bind]; discriminate.
        -- intros H. apply IH in H; [|exact I]. destruct H as (_ & _ & B).
           cbn [forallb]. rewrite W, B. auto.
      * destruct (shlex.quotes c).
        { intros H. apply IH in H; [|exact I].
          destruct H as (_ & [X|X] & _); discriminate. }
        destruct (shlex.escape c).
        { intros H. apply IH in H; [|exact I].
          destruct H as (_ & [X|X] & _); discriminate. }
        intros H. apply IH in H; [|exact I]. destruct H as (Em & _ & _).
        unfold shlex.emits in Em. rewrite truthy_snoc in Em. discriminate.
    + destruct (Ascii.eqb c q).
      { intros H. apply IH in H; [|exact I]. destruct H as (Em & _ & _).
        unfold shlex.emits in Em. rewrite orb_true_r in Em. discriminate. }
      destruct (shlex.escape c && shlex.escapedquotes q).
      { intros H. apply IH in H; [|exact I].
        destruct H as (_ & [X|X] & _); discriminate. }
      intros H. apply IH in H; [|exact I].
      destruct H as (_ & [X|X] & _); discriminate.
    + intros H.
      assert (Sn' : sane esc esc) by (destruct esc; try contradiction; exact I).
      apply IH in H; [|exact Sn']. destruct H as (Em & _ & _).
      unfold shlex.emits in Em.
      destruct (shlex.is_quote_state esc && negb (Ascii.eqb c BACKSLASH)
                && shlex.differs c esc);
        rewrite truthy_snoc in Em; discriminate.
Qed.

(** [shlex.split] returns no argument exactly for the blank commands:
    any character that is not a space, tab, carriage return or line feed
    gives an argument or a parse error. *)
Lemma split_nil_iff_blank (s : string) :
  shlex.split s = Returned [] <-> blank s = true.
Proof.
  split.
  - intros H. unfold shlex.split in H. apply read_tokens_nil in H; [|exact I].
    apply H.
  - apply split_blank.
Qed.

(** X7. The failure for want of a program to run is that of the blank
    commands and of no other: the [try] block of [execute_command] raises
    the [IndexError] of [subprocess.run], and the generator's spawning
    raises the [TypeError] of [create_subprocess_exec], exactly when the
    command is empty or made of spaces, tabs, carriage returns and line
    feeds only. *)
Theorem no_program_iff_blank (w : world) (request : ExecuteRequest) :
  (execute_try w request = Raised (IndexError "list index out of range")
   <-> blank (command request) = true)
  /\ (spawn w request
      = Raised (TypeError
          "create_subprocess_exec() missing 1 required positional argument: 'program'")
      <-> blank (command request) = true).
Proof.
  split; split.
  - unfold execute_try.
    destruct (shlex.split (command request)) as [args|e] eqn:S; cbn [bind].
    + destruct args as [|a args]; [intros _; apply split_nil_iff_blank; exact S|].
      unfold subprocess.run. destruct (exec w cwd (a :: args)) as [msg|c];
        [discriminate|].
      destruct (subprocess.too_large (timeout request)); [discriminate|].
      destruct (subprocess.expires (timeout request) c); [discriminate|].
      unfold subprocess.translate_newlines, decode.
      destruct (decodable (written (stdout_writes c))); cbn [bind]; [|discriminate].
      destruct (decodable (written (stderr_writes c))); cbn [bind]; discriminate.
    + intros H. inversion H; subst.
      destruct (split_raises _ _ S); discriminate.
  - intros B. apply split_nil_iff_blank in B. unfold execute_try. rewrite B.
    reflexivity.
  - unfold spawn.
    destruct (shlex.split (command request)) as [args|e] eqn:S; cbn [bind].
    + destruct args as [|a args]; [intros _; apply split_nil_iff_blank; exact S|].
      unfold asyncio.create_subprocess_exec.
      destruct (exec w cwd (a :: args)) as [msg|c]; discriminate.
    + intros H. inversion H; subst.
      destruct (split_raises _ _ S); discriminate.
  - intros B. apply split_nil_iff_blank in B. unfold spawn. rewrite B.
    reflexivity.
Qed.

(** ** What a response and a run tell *)

(** X8. A response of [execute_command] that carries any stdout, or an
    exit code other than 1 and 124, comes from a child that was spawned
    and ran to its end within the timeout: the response is that child's
    translated output and exit status. *)
Theorem execute_output_is_the_childs (w : world) (request : ExecuteRequest)
        (response : ExecuteResponse) :
  execute_command w request = Returned response ->
  truthy (stdout response) = true
  \/ (exit_code response <> 1 /\ exit_code response <> 124) ->
  exists args c,
    shlex.split (command request) = Returned args
    /\ exec w cwd args = spawned c
    /\ (forall n, timeout request = Some n -> exit_at c <= 1000 * n)
    /\ response = {| stdout := universal_newlines (written (stdout_writes c));
                     stderr := universal_newlines (written (stderr_writes c));
                     exit_code := exit_status c |}.
Proof.
  unfold execute_command, execute_try.
  destruct (shlex.split (command request)) as [args|e] eqn:S; cbn [bind].
  2:{ destruct e; intros H; inversion H; subst; cbn;
        intros [X|[X Y]]; try discriminate; congruence. }
  unfold subprocess.run. destruct args as [|a args].
  { cbn [bind]. intros H; inversion H; subst; cbn.
    intros [X|[X Y]]; [discriminate|congruence]. }
  destruct (exec w cwd (a :: args)) as [msg|c] eqn:E.
  { cbn [bind]. intros H; inversion H; subst; cbn.
    intros [X|[X Y]]; [discriminate|congruence]. }
  destruct (subprocess.too_large (timeout request)) as [large|].
  { cbn [bind]. intros H; inversion H; subst; cbn.
    intros [X|[X Y]]; [discriminate|congruence]. }
  unfold subprocess.expires.
  assert (T : forall n, timeout request = Some n ->
                        (1000 * n <? exit_at c) = false -> exit_at c <= 1000 * n).
  { intros n _ L. apply Z.ltb_ge in L. exact L. }
  destruct (timeout request) as [n|].
  - destruct (1000 * n <? exit_at c) eqn:L.
    { cbn [bind]. intros H; inversion H; subst; cbn.
      intros [X|[X Y]]; [discriminate|congruence]. }
    unfold subprocess.translate_newlines, decode.
    destruct (decodable (written (stdout_writes c))); cbn [bind].
    2:{ intros H; inversion H; subst; cbn.
        intros [X|[X Y]]; [discriminate|congruence]. }
    destruct (decodable (written (stderr_writes c))); cbn [bind].
    2:{ intros H; inversion H; subst; cbn.
        intros [X|[X Y]]; [discriminate|congruence]. }
    intros H _; inversion H; subst. exists (a :: args), c.
    split; [reflexivity|]. split; [exact E|]. split; [|reflexivity].
    intros n' Hn. inversion Hn; subst. apply (T n' eq_refl L).
  - unfold subprocess.translate_newlines, decode.
    destruct (decodable (written (stdout_writes c))); cbn [bind].
    2:{ intros H; inversion H; subst; cbn.
        intros [X|[X Y]]; [discriminate|congruence]. }
    destruct (decodable (written (stderr_writes c))); cbn [bind].
    2:{ intros H; inversion H; subst; cbn.
        intros [X|[X Y]]; [discriminate|congruence]. }
    intros H _; inversion H; subst. exists (a :: args), c.
    split; [reflexivity|]. split; [exact E|]. split; [|reflexivity].
    intros n' Hn. discriminate.
Qed.

Lemma execute_output_is_the_childs_witness :
  exists args c,
    shlex.split (command hello_request) = Returned args
    /\ exec hello_world cwd args = spawned c
    /\ (forall n, timeout hello_request = Some n -> exit_at c <= 1000 * n)
    /\ {| stdout := line "hello world"; stderr := EmptyString; exit_code := 0 |}
       = {| stdout := universal_newlines (written (stdout_writes c));
            stderr := universal_newlines (written (stderr_writes c));
            exit_code := exit_status c |}.
Proof.
  apply (execute_output_is_the_childs hello_world hello_request).
  - vm_compute; reflexivity.
  - left. reflexivity.
Defined.





(** ** [upload_file] and [download_file] *)

Lemma join_app (name : string) : os_path.join "/app" name = resolved name.
Proof.
  unfold os_path.join, resolved. destruct (String.prefix "/" name); reflexivity.
Qed.

Lemma download_file_resolved (fs : filesystem) (name : string) :
  download_file fs name
  = if isfile fs (resolved name)
    then FileResponse (resolved name) "application/octet-stream" name
    else JSONResponse 404 "File not found".
Proof.
  unfold download_file, os_path.join, resolved.
  destruct (String.prefix "/" name); reflexivity.
Qed.

(** What [upload_file] does with a file that has a name, by what the
    path it stands for admits. *)
Lemma upload_file_named (fs : filesystem) (name content : string) :
  upload_file fs {| filename := Some name; contents := content |}
  = match refuses fs (resolved name) with
    | Some msg => (fs, JSONResponse 500 ("File upload failed: " ++ msg))
    | None =>
        match fails fs (resolved name) content with
        | Some (msg, n) =>
            (store fs (resolved name) (String.substring 0 n content),
             JSONResponse 500 ("File upload failed: " ++ msg))
        | None =>
            (store fs (resolved name) content,
             JSONResponse 200 ("File '" ++ name ++ "' uploaded successfully."))
        end
    end.
Proof.
  unfold upload_file, upload_try. cbn [filename contents].
  rewrite join_app. unfold write_file.
  destruct (refuses fs (resolved name)) as [msg|]; [reflexivity|].
  destruct (fails fs (resolved name) content) as [[msg n]|]; reflexivity.
Qed.

(** What a path names once a file was stored there. *)
Lemma store_nodes (fs : filesystem) (path content : string) :
  nodes (store fs path content) path
  = match nodes fs path with
    | Some special => Some special
    | _ => Some (regular content)
    end.
Proof.
  unfold store. destruct (nodes fs path) as [[old|]|] eqn:N; cbn [nodes];
    rewrite ?String.eqb_refl; [reflexivity|exact N|reflexivity].
Qed.

(** X10. A file that was uploaded is found by a download of the same
    name, when the path the name stands for can be opened for writing,
    takes all the bytes, and names a regular file or nothing: the upload
    answers 200, and a download of the name from the file system it
    leaves answers with the file at that path, which holds the very bytes
    that were uploaded.  When the path names something else that takes
    the bytes, as [/dev/null], the upload answers 200 as well and the
    download 404. *)
Theorem upload_then_download (fs : filesystem) (name content : string) :
  refuses fs (os_path.join "/app" name) = None ->
  fails fs (os_path.join "/app" name) content = None ->
  let after := upload_file fs {| filename := Some name; contents := content |} in
  snd after = JSONResponse 200 ("File '" ++ name ++ "' uploaded successfully.")
  /\ (nodes fs (os_path.join "/app" name) <> Some special ->
      download_file (fst after) name
      = FileResponse (os_path.join "/app" name) "application/octet-stream" name
      /\ nodes (fst after) (os_path.join "/app" name) = Some (regular content))
  /\ (nodes fs (os_path.join "/app" name) = Some special ->
      download_file (fst after) name = JSONResponse 404 "File not found").
Proof.
  rewrite join_app. intros R F. cbn zeta.
  rewrite (upload_file_named fs name content), R, F. cbn [fst snd].
  split; [reflexivity|]. split.
  - intros N.
    assert (S : nodes (store fs (resolved name) content) (resolved name)
                = Some (regular content)).
    { rewrite store_nodes. destruct (nodes fs (resolved name)) as [[old|]|];
        [reflexivity|contradiction N; reflexivity|reflexivity]. }
    split; [|exact S].
    rewrite download_file_resolved. unfold isfile. rewrite S. reflexivity.
  - intros N. rewrite download_file_resolved. unfold isfile.
    rewrite store_nodes, N. reflexivity.
Qed.

Lemma upload_then_download_witness :
  snd (upload_file small_disk notes_upload)
  = JSONResponse 200 "File 'notes.txt' uploaded successfully."
  /\ download_file (fst (upload_file small_disk notes_upload)) "notes.txt"
     = FileResponse "/app/notes.txt" "application/octet-stream" "notes.txt"
  /\ nodes (fst (upload_file small_disk notes_upload)) "/app/notes.txt"
     = Some (regular "remember the milk").
Proof.
  destruct (upload_then_download small_disk "notes.txt" "remember the milk"
              eq_refl eq_refl) as (U & D & _).
  split; [exact U|]. apply D. discriminate.
Defined.

(** X11. The two file endpoints take a name the same way, and do not
    keep it under the sandbox root: a relative name stands for the path
    under [/app], an absolute name for itself.  A download answers with
    the file at that path when it is a regular file, and with status 404
    when it is not; an upload that opens that path and writes all the
    bytes leaves them in the regular file there, unless the path names
    something that is no regular file. *)
Theorem file_names_are_resolved (fs : filesystem) (name content : string) :
  (isfile fs (resolved name) = true ->
   download_file fs name
   = FileResponse (resolved name) "application/octet-stream" name)
  /\ (isfile fs (resolved name) = false ->
      download_file fs name = JSONResponse 404 "File not found")
  /\ (refuses fs (resolved name) = None ->
      fails fs (resolved name) content = None ->
      nodes fs (resolved name) <> Some special ->
      nodes (fst (upload_file fs {| filename := Some name; contents := content |}))
            (resolved name)
      = Some (regular content)).
Proof.
  refine (conj _ (conj _ _)).
  - intros F. rewrite download_file_resolved, F. reflexivity.
  - intros F. rewrite download_file_resolved, F. reflexivity.
  - intros R F N. rewrite (upload_file_named fs name content), R, F. cbn [fst].
    rewrite store_nodes.
    destruct (nodes fs (resolved name)) as [[old|]|];
      [reflexivity|contradiction N; reflexivity|reflexivity].
Qed.

Lemma file_names_are_resolved_witness :
  download_file small_disk "/etc/hostname"
  = FileResponse "/etc/hostname" "application/octet-stream" "/etc/hostname"
  /\ download_file small_disk "hostname" = JSONResponse 404 "File not found"
  /\ nodes (fst (upload_file small_disk
                   {| filename := Some "/etc/hostname"; contents := "owned" |}))
           "/etc/hostname"
     = Some (regular "owned").
Proof.
  destruct (file_names_are_resolved small_disk "/etc/hostname" "owned")
    as (S & _ & U).
  destruct (file_names_are_resolved small_disk "hostname" "owned") as (_ & D & _).
  split; [apply S; reflexivity|]. split; [apply D; reflexivity|].
  apply U; [reflexivity|reflexivity|discriminate].
Defined.

(** X12. [upload_file] never raises and answers 200 or 500: 200 exactly
    when the file has a name, the path it stands for can be opened for
    writing, and all the bytes can be written there; otherwise 500.  No
    file is changed when the file has no name or the path cannot be
    opened; when the write fails after the path was opened, a regular
    file there, or a new one, is left with the bytes written before the
    failure, and not with what it held. *)
Theorem upload_file_status (fs : filesystem) (file : UploadFile) :
  (status (snd (upload_file fs file)) = 200
   <-> exists name,
         filename file = Some name
         /\ refuses fs (resolved name) = None
         /\ fails fs (resolved name) (contents file) = None)
  /\ (status (snd (upload_file fs file)) <> 200 ->
      status (snd (upload_file fs file)) = 500)
  /\ (filename file = None
      \/ (exists name msg,
            filename file = Some name /\ refuses fs (resolved name) = Some msg) ->
      fst (upload_file fs file) = fs)
  /\ (forall name msg n,
        filename file = Some name ->
        refuses fs (resolved name) = None ->
        fails fs (resolved name) (contents file) = Some (msg, n) ->
        snd (upload_file fs file) = JSONResponse 500 ("File upload failed: " ++ msg)
        /\ (nodes fs (resolved name) <> Some special ->
            nodes (fst (upload_file fs file)) (resolved name)
            = Some (regular (String.substring 0 n (contents file))))).
Proof.
  destruct file as [[name|] content]; cbn [filename contents].
  - rewrite (upload_file_named fs name content).
    destruct (refuses fs (resolved name)) as [msg|] eqn:R.
    + cbn [fst snd status]. refine (conj _ (conj _ (conj _ _))).
      * split; [discriminate|]. intros (name' & N & R' & _). inversion N; subst.
        congruence.
      * intros _. reflexivity.
      * intros _. reflexivity.
      * intros name' msg' n N R'. inversion N; subst. congruence.
    + destruct (fails fs (resolved name) content) as [[msg n]|] eqn:F.
      * cbn [fst snd status]. refine (conj _ (conj _ (conj _ _))).
        -- split; [discriminate|]. intros (name' & N & _ & F'). inversion N; subst.
           congruence.
        -- intros _. reflexivity.
        -- intros [N|(name' & msg' & N & R')]; [discriminate|].
           inversion N; subst. congruence.
        -- intros name' msg' n' N _ F'. inversion N; subst.
           rewrite F in F'. inversion F'; subst. split; [reflexivity|].
           intros S. rewrite store_nodes.
           destruct (nodes fs (resolved name')) as [[old|]|];
             [reflexivity|contradiction S; reflexivity|reflexivity].
      * cbn [fst snd status]. refine (conj _ (conj _ (conj _ _))).
        -- split; [|reflexivity]. intros _. exists name. repeat split; assumption.
        -- intros H. contradiction H. reflexivity.
        -- intros [N|(name' & msg' & N & R')]; [discriminate|].
           inversion N; subst. congruence.
        -- intros name' msg' n' N _ F'. inversion N; subst. congruence.
  - cbn. refine (conj _ (conj _ (conj _ _))).
    + split; [discriminate|]. intros (name & N & _). discriminate.
    + intros _. reflexivity.
    + intros _. reflexivity.
    + intros name msg n N. discriminate.
Qed.

(** An upload to [/dev/full] opens the device and fails to write: the
    answer is 500. *)
Example upload_to_dev_full :
  snd (upload_file small_disk {| filename := Some "/dev/full"; contents := "x" |})
  = JSONResponse 500 "File upload failed: [Errno 28] No space left on device".
Proof. reflexivity. Qed.

(** An upload to [/dev/null] is answered 200, and nothing can be
    downloaded under that name. *)
Example upload_to_dev_null :
  snd (upload_file small_disk {| filename := Some "/dev/null"; contents := "x" |})
  = JSONResponse 200 "File '/dev/null' uploaded successfully."
  /\ download_file
       (fst (upload_file small_disk {| filename := Some "/dev/null"; contents := "x" |}))
       "/dev/null"
     = JSONResponse 404 "File not found".
Proof. split; reflexivity. Qed.

(** An upload that fills the disk leaves a file cut short. *)
Example upload_cut_short :
  snd (upload_file small_disk {| filename := Some "/tmp/data"; contents := "123456" |})
  = JSONResponse 500 "File upload failed: [Errno 28] No space left on device"
  /\ nodes
       (fst (upload_file small_disk
               {| filename := Some "/tmp/data"; contents := "123456" |}))
       "/tmp/data"
     = Some (regular "1234").
Proof. split; reflexivity. Qed.

(** ** The done event *)

Lemma to_int_proper (z : Z) : Z.to_int z <> Decimal.Pos Decimal.Nil
                               /\ Z.to_int z <> Decimal.Neg Decimal.Nil.
Proof.
  destruct z as [|p|p]; cbn; split; try discriminate; intros H; inversion H as [E];
    exact (DecimalPos.Unsigned.to_uint_nonnil p E).
Qed.

Lemma str_int_inj (a b : Z) : str_int a = str_int b -> a = b.
Proof.
  unfold str_int. intros H.
  apply (f_equal NilZero.int_of_string) in H.
  destruct (to_int_proper a) as [A1 A2], (to_int_proper b) as [B1 B2].
  rewrite (NilZero.isi _ A1 A2), (NilZero.isi _ B1 B2) in H.
  inversion H as [E]. apply DecimalZ.to_int_inj. exact E.
Qed.

Lemma append_inv_tail (s s' t : string) : s ++ t = s' ++ t -> s = s'.
Proof.
  intros H. apply (f_equal chars) in H. rewrite !chars_app in H.
  apply app_inv_tail in H. unfold chars in H.
  rewrite <- (string_of_list_ascii_of_string s),
          <- (string_of_list_ascii_of_string s'), H.
  reflexivity.
Qed.

(** X13. The done event tells the exit code: the data of two done
    events is the same only when the exit codes are, so the code can be
    read back from the event. *)
Theorem done_event_tells_the_code (a b : Z) :
  data (done_event a) = data (done_event b) <-> a = b.
Proof.
  split; [|intros ->; reflexivity].
  intros H. cbn [data done_event] in H.
  unfold done_data in H. cbn [append] in H.
  inversion H as [E]. apply append_inv_tail in E. apply str_int_inj. exact E.
Qed.
